(** * The ingestion pipeline and job dispatch loop of [jobQueue.js]

    A shallow embedding of [JobQueue] (src/jobQueue.js): the line parser
    [parseCSVLine], the streaming pipeline [processFileContent], the
    dispatch loop [processQueue] / [processJob], [enqueueJob] and
    [getJobStatus], and of the file written by
    code-for-test/generate-test-file.js, with the properties of the
    specification proved or refuted on it, and further properties of
    the code.

    Conventions.
    - A JavaScript string is its sequence of UTF-16 code units, [list N].
    - JavaScript counters are [nat]; the result of [parseInt] is an
      exact [Z], [None] standing for [NaN].
    - [throw] and [try] / [catch] are a state and exception monad on the
      local variables: what was written before a throw stays written.
    - The collaborators reached through [await] (the Record collection,
      the object store, the Job collection) are functions of a record
      [Host.t] on an abstract state of the outside world; each call
      returns either the error it rejects with or its value.  The body
      of a stored object is the list of lines [readline] reads from it.
    - Left out: the timestamps ([processedAt], [startedAt],
      [completedAt]), the floating-point [successRate] and the [summary]
      text built from it, and the console output.  A stream is taken
      as read to its end: a read error of the stream, on which the
      [for await] of [processFileContent] throws outside every [try],
      is left out too. *)

From Stdlib Require Import ZArith NArith String Ascii Lia Bool DecimalString.
From stdpp Require Import base list option.

Local Open Scope N_scope.

(** ** Strings *)

Abbreviation jsstring := (list N).

(** ASCII literals as code-unit sequences. *)
Fixpoint str (s : string) : jsstring :=
  match s with
  | EmptyString => []
  | String a r => N_of_ascii a :: str r
  end.

Definition dquote : N := 34.
Definition comma : N := 44.

Definition jsstring_eqb (a b : jsstring) : bool := bool_decide (a = b).

(** ECMAScript [WhiteSpace] and [LineTerminator] code points: what
    [String.prototype.trim] strips and what [\s] matches. *)
Definition isWhiteSpace (c : N) : bool :=
  ((9 <=? c) && (c <=? 13)) || (c =? 32) || (c =? 160) || (c =? 5760)
  || ((8192 <=? c) && (c <=? 8202)) || (c =? 8232) || (c =? 8233)
  || (c =? 8239) || (c =? 8287) || (c =? 12288) || (c =? 65279).

Fixpoint trimStart (s : jsstring) : jsstring :=
  match s with
  | [] => []
  | c :: r => if isWhiteSpace c then trimStart r else s
  end.

Definition trimEnd (s : jsstring) : jsstring := rev (trimStart (rev s)).

(** [s.trim()] *)
Definition trim (s : jsstring) : jsstring := trimEnd (trimStart s).

(** [s.substring(0, n)] *)
Definition substring0 (n : nat) (s : jsstring) : jsstring := take n s.

Arguments substring0 : simpl never.

(** ** [parseCSVLine] (jobQueue.js, lines 238-259) *)

Fixpoint parseCSVLine_loop (line : jsstring) (fields : list jsstring)
    (currentField : jsstring) (inQuotes : bool) : list jsstring :=
  match line with
  | [] => fields ++ [currentField]
  | char :: rest =>
      if char =? dquote then
        parseCSVLine_loop rest fields currentField (negb inQuotes)
      else if (char =? comma) && negb inQuotes then
        parseCSVLine_loop rest (fields ++ [currentField]) [] inQuotes
      else
        parseCSVLine_loop rest fields (currentField ++ [char]) inQuotes
  end.

Definition parseCSVLine (line : jsstring) : list jsstring :=
  parseCSVLine_loop line [] [] false.

(** The words of the specification: a comma splits when it lies outside
    the double-quote-delimited spans, that is, when an even number of
    quote characters precedes it. *)
Definition count_quotes (s : jsstring) : nat :=
  length (filter (fun c => c = dquote) s).

Definition outside_quotes (s : jsstring) (i : nat) : Prop :=
  Nat.even (count_quotes (take i s)) = true.

Definition split_point (s : jsstring) (i : nat) : Prop :=
  s !! i = Some comma /\ outside_quotes s i.

Definition strip_quotes (s : jsstring) : jsstring :=
  filter (fun c => c <> dquote) s.

(** The quoting state reached from state [q] after reading [s]. *)
Definition quoting_after (q : bool) (s : jsstring) : bool :=
  xorb q (Nat.odd (count_quotes s)).

(** The sample line of the specification,
    ["Martinez, Carlos",carlos@company.com] with its quote characters. *)
Definition martinez_line : jsstring :=
  dquote :: str "Martinez, Carlos" ++ dquote :: str ",carlos@company.com".

(** ** [parseInt] with no radix (ECMAScript, 19.2.5)

    Leading white space, an optional sign, an optional [0x] / [0X]
    prefix that switches to radix 16, then the longest run of digits;
    no digit at all is [NaN].  The result is kept as an exact integer:
    the comparisons with 0 and 150 made by the caller do not depend on
    the rounding to a double, and [-0] is identified with [0]. *)

Definition digitValue (radix c : N) : option N :=
  let v :=
    if (48 <=? c) && (c <=? 57) then Some (c - 48)
    else if (97 <=? c) && (c <=? 122) then Some (c - 87)
    else if (65 <=? c) && (c <=? 90) then Some (c - 55)
    else None in
  match v with
  | Some d => if d <? radix then Some d else None
  | None => None
  end.

Fixpoint digits_prefix (radix : N) (s : jsstring) : list N :=
  match s with
  | [] => []
  | c :: r =>
      match digitValue radix c with
      | Some d => d :: digits_prefix radix r
      | None => []
      end
  end.

Definition digits_value (radix : N) (ds : list N) : N :=
  fold_left (fun acc d => acc * radix + d) ds 0.

(** Steps 4-5: the sign, and the string without it. *)
Definition splitSign (inputString : jsstring) : Z * jsstring :=
  match inputString with
  | c :: r =>
      if c =? 45 then ((-1)%Z, r)
      else if c =? 43 then (1%Z, r)
      else (1%Z, inputString)
  | [] => (1%Z, [])
  end.

(** Step 9: the radix, and the string without the [0x] prefix. *)
Definition stripPrefix (unsigned : jsstring) : N * jsstring :=
  match unsigned with
  | c0 :: c1 :: r =>
      if (c0 =? 48) && ((c1 =? 120) || (c1 =? 88)) then (16, r)
      else (10, unsigned)
  | _ => (10, unsigned)
  end.

Definition parseInt (string : jsstring) : option Z :=
  let inputString := trimStart string in
  let '(sign, unsigned) := splitSign inputString in
  let '(radix, body) := stripPrefix unsigned in
  match digits_prefix radix body with
  | [] => None
  | ds => Some (sign * Z.of_N (digits_value radix ds))%Z
  end.

(** ** Regular expressions

    [RegExp.prototype.test] on a pattern anchored by [^] and [$] (no
    flags) decides membership of the whole string in the pattern's
    language; it is computed here with derivatives. *)

Inductive regex : Type :=
| Void : regex
| Eps : regex
| Class (p : N -> bool) : regex
| Cat (r1 r2 : regex) : regex
| Alt (r1 r2 : regex) : regex
| Star (r : regex) : regex.

Definition Plus (r : regex) : regex := Cat r (Star r).

Fixpoint nullable (r : regex) : bool :=
  match r with
  | Void => false
  | Eps => true
  | Class _ => false
  | Cat r1 r2 => nullable r1 && nullable r2
  | Alt r1 r2 => nullable r1 || nullable r2
  | Star _ => true
  end.

Fixpoint deriv (c : N) (r : regex) : regex :=
  match r with
  | Void => Void
  | Eps => Void
  | Class p => if p c then Eps else Void
  | Cat r1 r2 =>
      if nullable r1 then Alt (Cat (deriv c r1) r2) (deriv c r2)
      else Cat (deriv c r1) r2
  | Alt r1 r2 => Alt (deriv c r1) (deriv c r2)
  | Star r1 => Cat (deriv c r1) (Star r1)
  end.

Definition regex_test (r : regex) (s : jsstring) : bool :=
  nullable (fold_left (fun r c => deriv c r) s r).

(** The language of a pattern, to which [regex_test] is compared. *)
Inductive matches : regex -> jsstring -> Prop :=
| m_eps : matches Eps []
| m_class p c : p c = true -> matches (Class p) [c]
| m_cat r1 r2 s1 s2 :
    matches r1 s1 -> matches r2 s2 -> matches (Cat r1 r2) (s1 ++ s2)
| m_alt_l r1 r2 s : matches r1 s -> matches (Alt r1 r2) s
| m_alt_r r1 r2 s : matches r2 s -> matches (Alt r1 r2) s
| m_star_nil r : matches (Star r) []
| m_star_cons r s1 s2 :
    matches r s1 -> matches (Star r) s2 -> matches (Star r) (s1 ++ s2).

(** [[^\s@]] *)
Definition notSpaceAt (c : N) : bool := negb (isWhiteSpace c) && negb (c =? 64).

(** [/^[^\s@]+@[^\s@]+\.[^\s@]+$/] *)
Definition emailRegex : regex :=
  Cat (Plus (Class notSpaceAt))
   (Cat (Class (N.eqb 64))
    (Cat (Plus (Class notSpaceAt))
     (Cat (Class (N.eqb 46))
          (Plus (Class notSpaceAt))))).

(** ** Data model *)

Inductive Category : Set :=
| missingFields | invalidEmail | invalidAge | malformedLine | other.

(** The [errorCategories] object: one counter per category. *)
Record ErrorCategories : Type := mkCategories {
  count_missingFields : nat;
  count_invalidEmail : nat;
  count_invalidAge : nat;
  count_malformedLine : nat;
  count_other : nat
}.

Definition noErrors : ErrorCategories := mkCategories 0 0 0 0 0.

(** [errorCategories.c] *)
Definition count (c : Category) (cats : ErrorCategories) : nat :=
  match c with
  | missingFields => count_missingFields cats
  | invalidEmail => count_invalidEmail cats
  | invalidAge => count_invalidAge cats
  | malformedLine => count_malformedLine cats
  | other => count_other cats
  end.

(** [errorCategories.c++] *)
Definition increment (c : Category) (cats : ErrorCategories) : ErrorCategories :=
  let '(mkCategories mf ie ia ml ot) := cats in
  match c with
  | missingFields => mkCategories (S mf) ie ia ml ot
  | invalidEmail => mkCategories mf (S ie) ia ml ot
  | invalidAge => mkCategories mf ie (S ia) ml ot
  | malformedLine => mkCategories mf ie ia (S ml) ot
  | other => mkCategories mf ie ia ml (S ot)
  end.

(** An [Error] object: what is thrown and caught, with its [message]. *)
Record Error : Type := mkError { message : jsstring }.

Module RecordDoc.
Record t : Type := mk {
  name : jsstring;
  email : jsstring;
  age : option Z;
  department : option jsstring;
  uploadedFileId : jsstring
}.
End RecordDoc.

Module ErrorSample.
Record t : Type := mk {
  line : nat;
  error : jsstring;
  data : jsstring
}.
End ErrorSample.

(** The object returned by [processFileContent].  [successRate] and
    [summary] are computed from the counts in floating point and are
    left out. *)
Module Result.
Record t : Type := mk {
  totalLines : nat;
  successfulInserts : nat;
  failedLines : nat;
  errorCategories : ErrorCategories;
  errors : list ErrorSample.t
}.
End Result.

Inductive Status : Set := pending | processing | completed | failed.

#[global] Instance Status_eq_dec : EqDecision Status.
Proof. solve_decision. Defined.

(** A Job document (models/Job.js); the timestamps are left out. *)
Module Job.
Record t : Type := mk {
  jobId : jsstring;
  fileId : jsstring;
  fileName : jsstring;
  status : Status;
  result : option Result.t;
  error : option jsstring
}.
Definition set_status (v : Status) (j : t) : t :=
  mk (jobId j) (fileId j) (fileName j) v (result j) (error j).
Definition set_result (v : option Result.t) (j : t) : t :=
  mk (jobId j) (fileId j) (fileName j) (status j) v (error j).
Definition set_error (v : option jsstring) (j : t) : t :=
  mk (jobId j) (fileId j) (fileName j) (status j) (result j) v.
End Job.

Definition isEmpty (s : jsstring) : bool :=
  match s with [] => true | _ => false end.

(** [!x || x.trim() === ''] for a string [x]. *)
Definition blank (x : jsstring) : bool := isEmpty x || isEmpty (trim x).

Definition BATCH_SIZE : nat := 100.

(** ** A state and exception monad

    [M S X A]: a computation on a mutable state [S] that returns an [A]
    or throws an [X]; what was written before a throw stays written. *)

Definition M (S X A : Type) : Type := S -> (X + A) * S.

Definition ret {S X A} (a : A) : M S X A := fun s => (inr a, s).

Definition bind {S X A B} (m : M S X A) (k : A -> M S X B) : M S X B :=
  fun s =>
    match m s with
    | (inl x, s') => (inl x, s')
    | (inr a, s') => k a s'
    end.

Definition throw {S X A} (x : X) : M S X A := fun s => (inl x, s).

Definition gets {S X A} (f : S -> A) : M S X A := fun s => (inr (f s), s).

Definition modify {S X} (f : S -> S) : M S X unit := fun s => (inr tt, f s).

(** [try { m } catch (x) { h x }] *)
Definition try_catch {S X A} (m : M S X A) (h : X -> M S X A) : M S X A :=
  fun s =>
    match m s with
    | (inl x, s') => h x s'
    | (inr a, s') => (inr a, s')
    end.

Declare Scope js_scope.
Delimit Scope js_scope with js.
Notation "x <- m ;; k" := (bind m (fun x => k))
  (at level 100, m at next level, right associativity) : js_scope.
Notation "m ;; k" := (bind m (fun _ => k))
  (at level 100, right associativity) : js_scope.

(** [for (const a of l) { f a }] *)
Fixpoint forEach {S X A} (f : A -> M S X unit) (l : list A) : M S X unit :=
  match l with
  | [] => ret tt
  | a :: l => (f a ;; forEach f l)%js
  end.

(** ** The collaborators

    [E] is the state of everything outside the process; a call returns
    its outcome and the next state.
    - [toLowerCase]: [String.prototype.toLowerCase];
    - [numberToString]: the text of a number in a template literal;
    - [Record_insertMany docs]: [Record.insertMany(docs)], [Some err]
      when the call rejects with [err];
    - [s3Client_send fileName]: the [GetObject] request, returning the
      body as the lines [readline] reads from it, or the error it
      rejects with;
    - [job_save job]: whether writing [job] to the Job collection
      rejects. *)
Module Host.
Record t : Type := mk {
  E : Type;
  toLowerCase : jsstring -> jsstring;
  numberToString : Z -> jsstring;
  Record_insertMany : list RecordDoc.t -> E -> option Error * E;
  s3Client_send : jsstring -> E -> (Error + list jsstring) * E;
  job_save : Job.t -> E -> option Error * E
}.
End Host.

(** ** The job queue *)

Section JobQueue.

Variable host : Host.t.

Local Abbreviation E := (Host.E host).
Local Abbreviation toLowerCase := (Host.toLowerCase host).
Local Abbreviation numberToString := (Host.numberToString host).
Local Abbreviation Record_insertMany := (Host.Record_insertMany host).
Local Abbreviation s3Client_send := (Host.s3Client_send host).
Local Abbreviation job_save := (Host.job_save host).

(** *** [processFileContent] (jobQueue.js, lines 95-236) *)

(** The local variables of [processFileContent], with the state of
    the outside world. *)
Record Locals : Type := mkLocals {
  totalLines : nat;
  successfulInserts : nat;
  failedLines : nat;
  errors : list ErrorSample.t;
  errorCategories : ErrorCategories;
  batch : list RecordDoc.t;
  isFirstLine : bool;
  env : E
}.

Definition set_totalLines (v : nat) (s : Locals) : Locals :=
  mkLocals v (successfulInserts s) (failedLines s) (errors s)
    (errorCategories s) (batch s) (isFirstLine s) (env s).
Definition set_successfulInserts (v : nat) (s : Locals) : Locals :=
  mkLocals (totalLines s) v (failedLines s) (errors s)
    (errorCategories s) (batch s) (isFirstLine s) (env s).
Definition set_failedLines (v : nat) (s : Locals) : Locals :=
  mkLocals (totalLines s) (successfulInserts s) v (errors s)
    (errorCategories s) (batch s) (isFirstLine s) (env s).
Definition set_errors (v : list ErrorSample.t) (s : Locals) : Locals :=
  mkLocals (totalLines s) (successfulInserts s) (failedLines s) v
    (errorCategories s) (batch s) (isFirstLine s) (env s).
Definition set_errorCategories (v : ErrorCategories) (s : Locals) : Locals :=
  mkLocals (totalLines s) (successfulInserts s) (failedLines s) (errors s)
    v (batch s) (isFirstLine s) (env s).
Definition set_batch (v : list RecordDoc.t) (s : Locals) : Locals :=
  mkLocals (totalLines s) (successfulInserts s) (failedLines s) (errors s)
    (errorCategories s) v (isFirstLine s) (env s).
Definition set_isFirstLine (v : bool) (s : Locals) : Locals :=
  mkLocals (totalLines s) (successfulInserts s) (failedLines s) (errors s)
    (errorCategories s) (batch s) v (env s).
Definition set_env (v : E) (s : Locals) : Locals :=
  mkLocals (totalLines s) (successfulInserts s) (failedLines s) (errors s)
    (errorCategories s) (batch s) (isFirstLine s) v.

Definition initialLocals (e : E) : Locals :=
  mkLocals 0 0 0 [] noErrors [] true e.

(** [await Record.insertMany(docs)] *)
Definition insertMany (docs : list RecordDoc.t) : M Locals Error unit :=
  fun s =>
    let (r, e) := Record_insertMany docs (env s) in
    (match r with Some err => inl err | None => inr tt end, set_env e s).

(** [errorCategories.c++; throw new Error(msg)] *)
Definition fail {A} (c : Category) (msg : jsstring) : M Locals Error A :=
  (modify (fun s => set_errorCategories (increment c (errorCategories s)) s) ;;
   throw (mkError msg))%js.

(** Lines 158-169: the age of the record, [None] being [null]. *)
Definition validateAge (age : option jsstring) : M Locals Error (option Z) :=
  match age with
  | Some age =>
      if negb (blank age) then
        match parseInt (trim age) with
        | None =>
            fail invalidAge
              (str "Invalid age format: " ++ dquote :: age
               ++ dquote :: str " is not a number")
        | Some parsedAge =>
            if (parsedAge <? 0)%Z || (150 <? parsedAge)%Z
            then fail invalidAge
                   (str "Invalid age value: " ++ numberToString parsedAge
                    ++ str " (must be 0-150)")
            else ret (Some parsedAge)
        end
      else ret None
  | None => ret None
  end.

(** Lines 135-178: from the fields of a line to its record
    ([processedAt], a wall-clock time, is left out), or a throw. *)
Definition validate (fields : list jsstring) (fileId : jsstring)
    : M Locals Error RecordDoc.t :=
  match fields with
  | name :: email :: rest =>
      let age := rest !! 0%nat in
      let department := rest !! 1%nat in
      ((if blank name
        then fail missingFields (str "Name is required") else ret tt) ;;
       (if blank email
        then fail missingFields (str "Email is required") else ret tt) ;;
       (if negb (regex_test emailRegex (trim email))
        then fail invalidEmail (str "Invalid email format: " ++ email)
        else ret tt) ;;
       parsedAge <- validateAge age ;;
       ret (RecordDoc.mk (trim name) (toLowerCase (trim email)) parsedAge
              (match department with
               | Some d => if isEmpty d then None else Some (trim d)
               | None => None
               end)
              fileId))%js
  | _ =>
      fail malformedLine
        (str "Insufficient fields (need at least name and email)")
  end.

(** The body of the [try] block, lines 133-187. *)
Definition tryBlock (trimmedLine fileId : jsstring) : M Locals Error unit :=
  (let fields := parseCSVLine trimmedLine in
   record <- validate fields fileId ;;
   modify (fun s => set_batch (batch s ++ [record]) s) ;;
   full <- gets (fun s => BATCH_SIZE <=? length (batch s))%nat ;;
   if full then
     b <- gets batch ;;
     insertMany b ;;
     modify (fun s =>
       set_successfulInserts (successfulInserts s + length (batch s)) s) ;;
     modify (set_batch [])
   else ret tt)%js.

Definition namedCategoriesAllZero (cats : ErrorCategories) : bool :=
  (count missingFields cats =? 0)%nat && (count invalidEmail cats =? 0)%nat
  && (count invalidAge cats =? 0)%nat && (count malformedLine cats =? 0)%nat.

(** The [catch] block, lines 189-208. *)
Definition catchBlock (trimmedLine : jsstring) (error : Error)
    : M Locals Error unit :=
  (modify (fun s => set_failedLines (failedLines s + 1) s) ;;
   cats <- gets errorCategories ;;
   (if namedCategoriesAllZero cats
    then modify (fun s =>
           set_errorCategories (increment other (errorCategories s)) s)
    else ret tt) ;;
   retained <- gets (fun s => length (errors s)) ;;
   if (retained <? 50)%nat then
     modify (fun s =>
       set_errors
         (errors s ++
          [ErrorSample.mk (totalLines s + 1) (message error)
             (substring0 100 trimmedLine)])
         s)
   else ret tt)%js.

(** One turn of the [for await] loop, lines 118-209. *)
Definition processLine (fileId line : jsstring) : M Locals Error unit :=
  (first <- gets isFirstLine ;;
   if first then modify (set_isFirstLine false)
   else
     let trimmedLine := trim line in
     if isEmpty trimmedLine || jsstring_eqb trimmedLine (str ",,,")
     then ret tt
     else
       modify (fun s => set_totalLines (totalLines s + 1) s) ;;
       try_catch (tryBlock trimmedLine fileId) (catchBlock trimmedLine))%js.

(** Lines 211-215: the final flush. *)
Definition finalFlush : M Locals Error unit :=
  (b <- gets batch ;;
   if (0 <? length b)%nat then
     insertMany b ;;
     modify (fun s =>
       set_successfulInserts (successfulInserts s + length (batch s)) s)
   else ret tt)%js.

(** Lines 227-235: the returned object. *)
Definition makeResult (s : Locals) : Result.t :=
  Result.mk (totalLines s) (successfulInserts s) (failedLines s)
    (errorCategories s) (take 10 (errors s)).

Definition processFileContent_body (fileStream : list jsstring)
    (fileId : jsstring) : M Locals Error Result.t :=
  (forEach (processLine fileId) fileStream ;;
   finalFlush ;;
   gets makeResult)%js.

(** [processFileContent(fileStream, fileId)]: [inl err] when the
    returned promise rejects with [err]. *)
Definition processFileContent (fileStream : list jsstring)
    (fileId : jsstring) (e : E) : (Error + Result.t) * E :=
  let (r, s) := processFileContent_body fileStream fileId (initialLocals e) in
  (r, env s).

(** *** The dispatch loop (jobQueue.js, lines 39-93) *)

(** The Job collection in creation order, the [isProcessing] flag of
    the queue, and the outside world. *)
Record World : Type := mkWorld {
  jobs : list Job.t;
  isProcessing : bool;
  wenv : E
}.

Definition set_wenv (e : E) (w : World) : World :=
  mkWorld (jobs w) (isProcessing w) e.
Definition set_isProcessing (b : bool) (w : World) : World :=
  mkWorld (jobs w) b (wenv w).

(** [processJob] runs on the document [job] it was handed, loaded from
    position [i] of the collection, and on the world. *)
Definition JobM : Type -> Type := M (Job.t * World) Error.

Definition modifyJob (f : Job.t -> Job.t) : JobM unit :=
  modify (fun '(job, w) => (f job, w)).

(** [await job.save()]: the document replaces the stored one, unless
    the write rejects. *)
Definition save (i : nat) : JobM unit :=
  fun '(job, w) =>
    let (r, e) := job_save job (wenv w) in
    match r with
    | Some err => (inl err, (job, set_wenv e w))
    | None => (inr tt, (job, mkWorld (<[i:=job]> (jobs w)) (isProcessing w) e))
    end.

(** Lines 85-93. *)
Definition downloadFromS3 (fileName : jsstring) : JobM (list jsstring) :=
  fun '(job, w) =>
    let (r, e) := s3Client_send fileName (wenv w) in (r, (job, set_wenv e w)).

Definition runProcessFileContent (fileContent : list jsstring)
    (fileId : jsstring) : JobM Result.t :=
  fun '(job, w) =>
    let (r, e) := processFileContent fileContent fileId (wenv w) in
    (r, (job, set_wenv e w)).

(** The [try] block of [processJob], lines 58-73. *)
Definition processJob_try (i : nat) : JobM unit :=
  (modifyJob (Job.set_status processing) ;;
   save i ;;
   fileName <- gets (fun '(job, _) => Job.fileName job) ;;
   fileContent <- downloadFromS3 fileName ;;
   fileId <- gets (fun '(job, _) => Job.fileId job) ;;
   result <- runProcessFileContent fileContent fileId ;;
   modifyJob (Job.set_status completed) ;;
   modifyJob (Job.set_result (Some result)) ;;
   save i)%js.

(** The [catch] block of [processJob], lines 75-82. *)
Definition processJob_catch (i : nat) (error : Error) : JobM unit :=
  (modifyJob (Job.set_status failed) ;;
   modifyJob (Job.set_error (Some (message error))) ;;
   save i)%js.

(** [processJob(job)]: [inl err] when the returned promise rejects. *)
Definition processJob (i : nat) : JobM unit :=
  try_catch (processJob_try i) (processJob_catch i).

(** [Job.findOne({ status: 'pending' }).sort({ createdAt: 1 })] *)
Definition findOnePending (w : World) : option (nat * Job.t) :=
  list_find (fun job => Job.status job = pending) (jobs w).

Definition pendingCount (w : World) : nat :=
  length (filter (fun job => Job.status job = pending) (jobs w)).

(** How a call of [processQueue] ends: its promise resolves, or
    rejects with an error. *)
Inductive Drain : Type :=
| Resolved
| Rejected (err : Error).

(** The [while (true)] loop of lines 44-53, at most [fuel] turns;
    [None] when the turns run out. *)
Fixpoint processQueue_loop (fuel : nat) (w : World) : option (Drain * World) :=
  match fuel with
  | O => None
  | S fuel =>
      match findOnePending w with
      | None => Some (Resolved, set_isProcessing false w)
      | Some (i, job) =>
          match processJob i (job, w) with
          | (inl err, (_, w')) => Some (Rejected err, w')
          | (inr _, (_, w')) => processQueue_loop fuel w'
          end
      end
  end.

(** [processQueue()], lines 39-54.  Every turn that does not reject
    takes one job out of [pending], so [pendingCount w + 1] turns are
    enough. *)
Definition processQueue (w : World) : option (Drain * World) :=
  if isProcessing w then Some (Resolved, w)
  else processQueue_loop (S (pendingCount w)) (set_isProcessing true w).

End JobQueue.

Arguments totalLines {host}.
Arguments successfulInserts {host}.
Arguments failedLines {host}.
Arguments errors {host}.
Arguments errorCategories {host}.
Arguments batch {host}.
Arguments isFirstLine {host}.
Arguments env {host}.
Arguments jobs {host}.
Arguments isProcessing {host}.
Arguments wenv {host}.
Arguments set_totalLines {host}.
Arguments set_successfulInserts {host}.
Arguments set_failedLines {host}.
Arguments set_errors {host}.
Arguments set_errorCategories {host}.
Arguments set_batch {host}.
Arguments set_isFirstLine {host}.
Arguments set_env {host}.
Arguments set_wenv {host}.
Arguments set_isProcessing {host}.

(** ** The ways a [try] block ends

    [TryOutcome fields fileId s r s']: from state [s] the [try] block of
    a counted line with fields [fields] ends with [r] in state [s'].  It
    throws on a failed check, with one named category counted, or on a
    rejected [insertMany], with the record still in the batch; it
    completes with the record batched, or with the full batch
    flushed. *)
Inductive TryOutcome {host : Host.t} (fields : list jsstring)
    (fileId : jsstring) (s : Locals host)
    : Error + unit -> Locals host -> Prop :=
| try_invalid (c : Category) (msg : jsstring) :
    c <> other ->
    validate host fields fileId s
    = (inl (mkError msg),
       set_errorCategories (increment c (errorCategories s)) s) ->
    TryOutcome fields fileId s (inl (mkError msg))
      (set_errorCategories (increment c (errorCategories s)) s)
| try_batched (record : RecordDoc.t) :
    validate host fields fileId s = (inr record, s) ->
    (length (batch s ++ [record]) < BATCH_SIZE)%nat ->
    TryOutcome fields fileId s (inr tt) (set_batch (batch s ++ [record]) s)
| try_flushed (record : RecordDoc.t) (e : Host.E host) :
    validate host fields fileId s = (inr record, s) ->
    (BATCH_SIZE <= length (batch s ++ [record]))%nat ->
    Host.Record_insertMany host (batch s ++ [record]) (env s) = (None, e) ->
    TryOutcome fields fileId s (inr tt)
      (set_batch []
         (set_successfulInserts
            (successfulInserts s + length (batch s ++ [record]))
            (set_env e s)))
| try_rejected (record : RecordDoc.t) (err : Error) (e : Host.E host) :
    validate host fields fileId s = (inr record, s) ->
    (BATCH_SIZE <= length (batch s ++ [record]))%nat ->
    Host.Record_insertMany host (batch s ++ [record]) (env s) = (Some err, e) ->
    TryOutcome fields fileId s (inl err)
      (set_env e (set_batch (batch s ++ [record]) s)).

(** [FailureAt host fileStream fileId e k sample]: the line at
    position [k] of [fileStream] fails, and [sample] describes that
    failure.  The line is counted, its [try] block throws [err] with
    [totalLines] already counting the line, and [sample] holds
    [totalLines + 1], the message of [err], and the first 100 code
    units of the trimmed line: its prefix of length 100, or the whole of
    it when it is shorter. *)
Definition FailureAt (host : Host.t) (fileStream : list jsstring)
    (fileId : jsstring) (e : Host.E host) (k : nat)
    (sample : ErrorSample.t) : Prop :=
  exists pre line post s err s1,
    fileStream = pre ++ line :: post /\ length pre = k /\
    forEach (processLine host fileId) pre (initialLocals host e) = (inr tt, s) /\
    isFirstLine s = false /\ trim line <> [] /\ trim line <> str ",,," /\
    tryBlock host (trim line) fileId (set_totalLines (totalLines s + 1) s)
      = (inl err, s1) /\
    totalLines s1 = (totalLines s + 1)%nat /\
    ErrorSample.line sample = (totalLines s1 + 1)%nat /\
    ErrorSample.error sample = message err /\
    ErrorSample.data sample `prefix_of` trim line /\
    length (ErrorSample.data sample) = Nat.min 100 (length (trim line)).

(** Positions in file order. *)
Definition Increasing (ks : list nat) : Prop :=
  forall i j a b,
    (i < j)%nat -> ks !! i = Some a -> ks !! j = Some b -> (a < b)%nat.

(** [FirstFailures host fileStream fileId e n samples]: [samples] are
    the samples of the first failing lines of the run, in file order:
    of all of them, or of the first [n] when there are more. *)
Definition FirstFailures (host : Host.t) (fileStream : list jsstring)
    (fileId : jsstring) (e : Host.E host) (n : nat)
    (samples : list ErrorSample.t) : Prop :=
  exists ks,
    Forall2 (FailureAt host fileStream fileId e) ks samples /\
    Increasing ks /\
    forall k sample,
      FailureAt host fileStream fileId e k sample ->
      k ∈ ks \/ (length ks = n /\ Forall (fun k' => (k' < k)%nat) ks).

(** [accepts host fields fileId age]: the checks pass on [fields] and
    the record built has age [age]; [rejects host fields c]: the checks
    throw, with category [c] counted and nothing else changed. *)
Definition accepts (host : Host.t) (fields : list jsstring)
    (fileId : jsstring) (age : option Z) : Prop :=
  forall s : Locals host,
    exists record,
      validate host fields fileId s = (inr record, s) /\
      RecordDoc.age record = age.

Definition rejects (host : Host.t) (fields : list jsstring)
    (fileId : jsstring) (c : Category) : Prop :=
  forall s : Locals host,
    exists msg,
      validate host fields fileId s
      = (inl (mkError msg),
         set_errorCategories (increment c (errorCategories s)) s).

(** [invalidAgeCounted host fields fileId]: the checks throw on
    [fields], and by then [errorCategories.invalidAge] has risen by one;
    the other four counters and every other variable of the run are as
    before. *)
Definition invalidAgeCounted (host : Host.t) (fields : list jsstring)
    (fileId : jsstring) : Prop :=
  forall s : Locals host,
    exists err s',
      validate host fields fileId s = (inl err, s') /\
      count_invalidAge (errorCategories s')
      = S (count_invalidAge (errorCategories s)) /\
      count_missingFields (errorCategories s')
      = count_missingFields (errorCategories s) /\
      count_invalidEmail (errorCategories s')
      = count_invalidEmail (errorCategories s) /\
      count_malformedLine (errorCategories s')
      = count_malformedLine (errorCategories s) /\
      count_other (errorCategories s') = count_other (errorCategories s) /\
      totalLines s' = totalLines s /\
      successfulInserts s' = successfulInserts s /\
      failedLines s' = failedLines s /\
      errors s' = errors s /\ batch s' = batch s /\
      isFirstLine s' = isFirstLine s /\ env s' = env s.

(** A string that begins with an optional sign and at least one decimal
    digit, followed by characters the first of which is not a digit;
    the value of that leading integer; and the strings among them that
    [parseInt] reads in radix 16. *)
Definition isDecimalDigit (c : N) : bool := (48 <=? c) && (c <=? 57).

Definition LeadingInteger (s sign ds rest : jsstring) : Prop :=
  s = sign ++ ds ++ rest /\
  (sign = [] \/ sign = [43] \/ sign = [45]) /\
  ds <> [] /\ forallb isDecimalDigit ds = true /\
  exists c rest', rest = c :: rest' /\ isDecimalDigit c = false.

Definition prefixValue (sign ds : jsstring) : Z :=
  let sgn := if bool_decide (sign = [45]) then (-1)%Z else 1%Z in
  let magnitude := digits_value 10 (map (fun c => c - 48) ds) in
  (sgn * Z.of_N magnitude)%Z.

Definition hexPrefixed (ds rest : jsstring) : Prop :=
  ds = [48] /\ exists rest', rest = 120 :: rest' \/ rest = 88 :: rest'.

(** The document the [catch] block of [processJob] saves. *)
Definition failedJob (job : Job.t) (err : Error) : Job.t :=
  Job.set_error (Some (message err)) (Job.set_status failed job).

(** [MidStreamRejection host fileStream fileId e err]: during the run
    some counted line passes its checks, fills the batch, and the
    [insertMany] of that batch rejects with [err]. *)
Definition MidStreamRejection (host : Host.t) (fileStream : list jsstring)
    (fileId : jsstring) (e : Host.E host) (err : Error) : Prop :=
  exists pre line post s record e1,
    fileStream = pre ++ line :: post /\
    forEach (processLine host fileId) pre (initialLocals host e) = (inr tt, s) /\
    isFirstLine s = false /\ trim line <> [] /\ trim line <> str ",,," /\
    validate host (parseCSVLine (trim line)) fileId
      (set_totalLines (totalLines s + 1) s)
      = (inr record, set_totalLines (totalLines s + 1) s) /\
    (BATCH_SIZE <= length (batch s ++ [record]))%nat /\
    Host.Record_insertMany host (batch s ++ [record]) (env s) = (Some err, e1).

(** [FinalFlushRejection host fileStream fileId e err]: the stream is
    exhausted with records still in the batch, and the [insertMany] of
    that batch rejects with [err]. *)
Definition FinalFlushRejection (host : Host.t) (fileStream : list jsstring)
    (fileId : jsstring) (e : Host.E host) (err : Error) : Prop :=
  exists s e',
    forEach (processLine host fileId) fileStream (initialLocals host e)
      = (inr tt, s) /\
    batch s <> [] /\
    Host.Record_insertMany host (batch s) (env s) = (Some err, e').

(** Every [insertMany] call of the run succeeds. *)
Definition everyInsertSucceeds (host : Host.t) (fileStream : list jsstring)
    (fileId : jsstring) (e : Host.E host) : Prop :=
  forall err,
    ~ MidStreamRejection host fileStream fileId e err /\
    ~ FinalFlushRejection host fileStream fileId e err.

(** The save made by the [catch] block of [processJob], of a document
    whose status is [failed], is acknowledged. *)
Definition handlerSaveSucceeds (host : Host.t) : Prop :=
  forall job e,
    Job.status job = failed -> (Host.job_save host job e).1 = None.


(** ** Hosts for the examples

    The outside world is a counter of the [insertMany] calls made so
    far; which calls and which saves reject is given by predicates, and
    the object store by a list of named objects. *)

Definition asciiLower (s : jsstring) : jsstring :=
  map (fun c => if (65 <=? c) && (c <=? 90) then c + 32 else c) s.

Definition decimal (z : Z) : jsstring :=
  str (NilEmpty.string_of_int (Z.to_int z)).

Definition scripted (insertRejects : nat -> bool)
    (objects : list (jsstring * list jsstring))
    (saveRejects : Job.t -> bool) : Host.t :=
  Host.mk nat asciiLower decimal
    (fun _ n =>
       (if insertRejects n then Some (mkError (str "write failed")) else None,
        S n))
    (fun key n =>
       (match list_find (fun o => o.1 = key) objects with
        | Some (_, (_, body)) => inr body
        | None => inl (mkError (str "NoSuchKey"))
        end, n))
    (fun job n =>
       (if saveRejects job then Some (mkError (str "save failed")) else None,
        n)).

(** A host whose calls all succeed, with an empty object store. *)
Definition reliable : Host.t := scripted (fun _ => false) [] (fun _ => false).

Definition header : jsstring := str "name,email,age,department".
Definition goodLine : jsstring := str "John Doe,john@company.com,30,Engineering".
Definition badEmailLine : jsstring := str "David Lee,david@,28,Engineering".

(** Hosts with one faulty collaborator: the first [insertMany] call
    rejects; the save of a [failed] document rejects and the object
    store is empty; the save of a [completed] document rejects and the
    object store holds [a.csv]. *)
Definition firstInsertDown : Host.t :=
  scripted (fun n => (n =? 0)%nat) [] (fun _ => false).

Definition handlerSaveDown : Host.t :=
  scripted (fun _ => false) []
    (fun job => bool_decide (Job.status job = failed)).

Definition completedSaveDown : Host.t :=
  scripted (fun _ => false) [(str "a.csv", [header; goodLine])]
    (fun job => bool_decide (Job.status job = completed)).

Definition pendingJob (id fileName : string) : Job.t :=
  Job.mk (str id) (str "file-1") (str fileName) pending None None.

(** The record of [goodLine], and the state of a run on
    [firstInsertDown] after the header and 99 copies of [goodLine]. *)
Definition goodRecord : RecordDoc.t :=
  RecordDoc.mk (str "John Doe") (str "john@company.com") (Some 30%Z)
    (Some (str "Engineering")) (str "file-1").


(** The result of a run over [header; goodLine]. *)
Definition oneInserted : Result.t := Result.mk 1 1 0 noErrors [].

(** The result of a run over [header; goodLine; badEmailLine]. *)
Definition oneBadEmail : Result.t :=
  Result.mk 2 1 1 (mkCategories 0 1 0 0 0)
    [ErrorSample.mk 3 (str "Invalid email format: david@") badEmailLine].

(** ** Definitions for the further properties *)

(** [fields.join(sep)], the writer that [parseCSVLine] reads back. *)
Fixpoint joinWith (sep : N) (fields : list jsstring) : jsstring :=
  match fields with
  | [] => []
  | [f] => f
  | f :: rest => f ++ sep :: joinWith sep rest
  end.

Definition quoted (f : jsstring) : jsstring := dquote :: f ++ [dquote].

(** [writesField f e]: [e] is a way to write the field [f], which holds
    no quote character: between quotes, or as it is when it holds no
    comma. *)
Definition writesField (f e : jsstring) : Prop :=
  (dquote ∉ f) /\ (e = quoted f \/ (e = f /\ (comma ∉ f))).

#[global] Instance split_point_dec s i : Decision (split_point s i).
Proof. unfold split_point, outside_quotes. apply _. Defined.

(** The positions of the commas outside quotes. *)
Definition split_points (s : jsstring) : list nat :=
  filter (split_point s) (seq 0 (length s)).

(** The lines the loop counts: those after the first whose trimmed form
    is neither empty nor [,,,]. *)
Definition counted (line : jsstring) : bool :=
  negb (isEmpty (trim line) || jsstring_eqb (trim line) (str ",,,")).

Definition dataLines (fileStream : list jsstring) : list jsstring :=
  filter (fun line => counted line = true) (tail fileStream).

(** The sum of the four named counters. *)
Definition namedTotal (cats : ErrorCategories) : nat :=
  count missingFields cats + count invalidEmail cats
  + count invalidAge cats + count malformedLine cats.

(** The strings [emailRegex] accepts, in words: three non-empty
    stretches free of white space and of [@], separated by an [@] and a
    dot. *)
Definition emailShaped (s : jsstring) : Prop :=
  exists a b c,
    s = a ++ 64 :: b ++ 46 :: c /\
    (a <> [] /\ Forall (fun x => notSpaceAt x = true) a) /\
    (b <> [] /\ Forall (fun x => notSpaceAt x = true) b) /\
    (c <> [] /\ Forall (fun x => notSpaceAt x = true) c).

(** [validLine host fileId line]: the loop counts [line] and its checks
    pass. *)
Definition validLine (host : Host.t) (fileId line : jsstring) : Prop :=
  counted line = true /\
  exists age, accepts host (parseCSVLine (trim line)) fileId age.

(** *** What a run gives to [insertMany]

    [recordOf host fileId e line]: the record of a line after the
    first, which is what [validate] returns on it when the loop counts
    it and its checks pass; [None] for a line that is skipped or
    fails. *)
Definition recordOf (host : Host.t) (fileId : jsstring) (e : Host.E host)
    (line : jsstring) : option RecordDoc.t :=
  if counted line then
    match validate host (parseCSVLine (trim line)) fileId (initialLocals host e)
    with
    | (inr record, _) => Some record
    | (inl _, _) => None
    end
  else None.

(** [FullBatches calls e0 s], for a state [s] between two turns of a
    run started in [e0], where [calls] gives the batches [insertMany]
    has been called with: each call of the run carried [BATCH_SIZE]
    documents, and the batch holds fewer. *)
Definition FullBatches {host : Host.t}
    (calls : Host.E host -> list (list RecordDoc.t)) (e0 : Host.E host)
    (s : Locals host) : Prop :=
  (length (batch s) < BATCH_SIZE)%nat /\
  exists full,
    calls (env s) = calls e0 ++ full /\
    Forall (fun b => length b = BATCH_SIZE) full.

(** A host whose outside world is the list of the batches given to
    [insertMany] so far; every call succeeds, and the object store is
    empty. *)
Definition logging : Host.t :=
  Host.mk (list (list RecordDoc.t)) asciiLower decimal
    (fun docs e => (None, e ++ [docs]))
    (fun _ e => (inl (mkError (str "NoSuchKey")), e))
    (fun _ e => (None, e)).

(** *** The generator of code-for-test/generate-test-file.js

    [numeral n] is the text of the non-negative integer [n] in a
    template literal: its decimal digits. *)
Fixpoint numeral_loop (fuel : nat) (n : N) (acc : jsstring) : jsstring :=
  match fuel with
  | O => acc
  | S fuel =>
      let acc := (48 + n mod 10) :: acc in
      if n / 10 =? 0 then acc else numeral_loop fuel (n / 10) acc
  end.

Definition numeral (n : N) : jsstring :=
  numeral_loop (S (N.to_nat (N.size n))) n [].

(** Line 9: the line written for [i]. *)
Definition generatedLine (i : N) : jsstring :=
  str "User" ++ numeral i ++ str ",user" ++ numeral i
  ++ str "@company.com," ++ numeral (20 + i mod 50)
  ++ str ",Dept" ++ numeral (i mod 10).

(** Lines 6-9: the lines of the file written for [i] from 0 to
    [n - 1], after the header ([n] is 1000000 in the script). *)
Definition generatedFile (n : nat) : list jsstring :=
  header :: map (fun i => generatedLine (N.of_nat i)) (seq 0 n).

(** The four fields of the line written for [i]. *)
Definition generatedFields (i : N) : list jsstring :=
  [str "User" ++ numeral i;
   str "user" ++ numeral i ++ str "@company.com";
   numeral (20 + i mod 50);
   str "Dept" ++ numeral (i mod 10)].

(** *** [enqueueJob] and [getJobStatus] (jobQueue.js, lines 20-37 and
    261-263)

    [jobId] is what [uuidv4()] returned.  A new document is saved at
    the end of the collection.  The call of [processQueue] on line 33 is
    not awaited: it runs up to its first [await], which sets
    [isProcessing], and the drain goes on after [enqueueJob] has
    returned.  The result is the outcome of the call, the world when it
    returns, and whether a drain was started. *)
Definition enqueueJob (host : Host.t) (jobId fileId fileName : jsstring)
    (w : World host) : (Error + Job.t) * World host * bool :=
  let job := Job.mk jobId fileId fileName pending None None in
  let (r, e) := Host.job_save host job (wenv w) in
  match r with
  | Some err => (inl err, set_wenv e w, false)
  | None =>
      let w1 := mkWorld host (jobs w ++ [job]) (isProcessing w) e in
      if negb (isProcessing w1) then (inr job, set_isProcessing true w1, true)
      else (inr job, w1, false)
  end.

(** [Job.findOne({ jobId })] *)
Definition getJobStatus (host : Host.t) (jobId : jsstring) (w : World host)
    : option Job.t :=
  snd <$> list_find (fun job => Job.jobId job = jobId) (jobs w).

(** [Kept before after]: the stored document [after] is the document
    [before] of the same request, and is [before] itself unless that
    was [pending]. *)
Definition Kept (before after : Job.t) : Prop :=
  Job.jobId after = Job.jobId before /\
  Job.fileId after = Job.fileId before /\
  Job.fileName after = Job.fileName before /\
  (Job.status before <> pending -> after = before).

(** ** Lemmas on [parseCSVLine] *)

Lemma parseCSVLine_loop_acc line : forall fields cur q,
  parseCSVLine_loop line fields cur q
  = fields ++ parseCSVLine_loop line [] cur q.
Proof.
  induction line as [|c rest IH]; intros fields cur q; simpl.
  - reflexivity.
  - destruct (c =? dquote); [apply IH|].
    destruct ((c =? comma) && negb q).
    + rewrite IH. rewrite (IH [cur]). now rewrite app_assoc.
    + apply IH.
Qed.

Lemma count_quotes_cons c s :
  count_quotes (c :: s)
  = ((if (c =? dquote)%N then 1 else 0) + count_quotes s)%nat.
Proof.
  unfold count_quotes. rewrite filter_cons.
  destruct (N.eqb_spec c dquote); case_decide; simpl; congruence.
Qed.

Lemma strip_quotes_cons c s :
  strip_quotes (c :: s)
  = if c =? dquote then strip_quotes s else c :: strip_quotes s.
Proof.
  unfold strip_quotes. rewrite filter_cons.
  destruct (N.eqb_spec c dquote); case_decide; simpl; congruence.
Qed.

Lemma quoting_after_cons q c s :
  quoting_after q (c :: s)
  = quoting_after (if c =? dquote then negb q else q) s.
Proof.
  unfold quoting_after. rewrite count_quotes_cons.
  destruct (c =? dquote); simpl; [|reflexivity].
  rewrite Nat.odd_succ, <- Nat.negb_odd. now destruct q, (Nat.odd _).
Qed.

(** A stretch with no comma outside quotes is read into the current
    field, quote characters dropped. *)
Lemma parseCSVLine_loop_stretch s : forall cur q rest,
  (forall i, s !! i = Some comma -> quoting_after q (take i s) = true) ->
  parseCSVLine_loop (s ++ rest) [] cur q
  = parseCSVLine_loop rest [] (cur ++ strip_quotes s) (quoting_after q s).
Proof.
  induction s as [|c s IH]; intros cur q rest Hs; simpl.
  - unfold quoting_after. simpl. rewrite app_nil_r. now destruct q.
  - rewrite quoting_after_cons, strip_quotes_cons.
    assert (Hs' : forall i, s !! i = Some comma ->
        quoting_after (if c =? dquote then negb q else q) (take i s) = true).
    { intros i Hi. specialize (Hs (S i) Hi). simpl in Hs.
      now rewrite quoting_after_cons in Hs. }
    destruct (N.eqb_spec c dquote) as [->|Hq].
    + now rewrite IH.
    + destruct (N.eqb_spec c comma) as [->|Hc]; simpl.
      * specialize (Hs 0%nat eq_refl). simpl in Hs.
        unfold quoting_after in Hs. simpl in Hs.
        rewrite xorb_false_r in Hs. subst q. simpl.
        rewrite IH by assumption. now rewrite <- app_assoc.
      * rewrite IH by assumption. now rewrite <- app_assoc.
Qed.

Lemma outside_quotes_quoting s i :
  outside_quotes s i <-> quoting_after false (take i s) = false.
Proof.
  unfold outside_quotes, quoting_after. rewrite <- Nat.negb_odd.
  simpl. destruct (Nat.odd _); simpl; split; congruence.
Qed.

Lemma no_split_point_quoting s :
  (forall i, ~ split_point s i) ->
  forall i, s !! i = Some comma -> quoting_after false (take i s) = true.
Proof.
  intros H i Hi. specialize (H i). unfold split_point in H.
  rewrite outside_quotes_quoting in H.
  destruct (quoting_after false (take i s)); [reflexivity|].
  exfalso. apply H. now split.
Qed.

Lemma parseCSVLine_no_split s :
  (forall i, ~ split_point s i) -> parseCSVLine s = [strip_quotes s].
Proof.
  intros H. unfold parseCSVLine.
  rewrite <- (app_nil_r s) at 1.
  rewrite parseCSVLine_loop_stretch by now apply no_split_point_quoting.
  reflexivity.
Qed.

Lemma parseCSVLine_split pre post :
  (forall i, ~ split_point pre i) ->
  Nat.even (count_quotes pre) = true ->
  parseCSVLine (pre ++ comma :: post)
  = strip_quotes pre :: parseCSVLine post.
Proof.
  intros H Hev. unfold parseCSVLine.
  rewrite parseCSVLine_loop_stretch by now apply no_split_point_quoting.
  unfold quoting_after. rewrite <- Nat.negb_odd in Hev.
  destruct (Nat.odd (count_quotes pre)); [discriminate|]. simpl.
  now rewrite parseCSVLine_loop_acc.
Qed.

Lemma parseCSVLine_loop_length line : forall fields cur q,
  (length fields < length (parseCSVLine_loop line fields cur q))%nat.
Proof.
  induction line as [|c rest IH]; intros fields cur q; simpl.
  - rewrite length_app. simpl. lia.
  - destruct (c =? dquote); [apply IH|].
    destruct ((c =? comma) && negb q); [|apply IH].
    specialize (IH (fields ++ [cur]) [] q).
    rewrite length_app in IH. simpl in IH. lia.
Qed.

Lemma parseCSVLine_nonempty line : (1 <= length (parseCSVLine line))%nat.
Proof.
  pose proof (parseCSVLine_loop_length line [] [] false) as H.
  simpl in H. unfold parseCSVLine. lia.
Qed.

(** ** Lemmas on regular expressions *)

Lemma nullable_matches r : nullable r = true <-> matches r [].
Proof.
  split.
  - induction r; simpl; intros H; try discriminate H.
    + constructor.
    + apply andb_true_iff in H as [H1 H2].
      change (@nil N) with (@nil N ++ []). constructor; auto.
    + apply orb_true_iff in H as [H|H]; [apply m_alt_l|apply m_alt_r]; auto.
    + constructor.
  - intros H. remember [] as s eqn:Hs.
    induction H; simpl; try reflexivity; try discriminate Hs.
    + apply app_eq_nil in Hs as [-> ->].
      rewrite IHmatches1, IHmatches2; reflexivity.
    + now rewrite IHmatches.
    + rewrite IHmatches by assumption. apply orb_true_r.
Qed.

Lemma deriv_sound c r : forall s, matches (deriv c r) s -> matches r (c :: s).
Proof.
  induction r as [| |p|r1 IH1 r2 IH2|r1 IH1 r2 IH2|r IH]; simpl; intros s H.
  - inversion H.
  - inversion H.
  - destruct (p c) eqn:Hp; inversion H; subst. now constructor.
  - assert (Hcat : forall t, matches (Cat (deriv c r1) r2) t ->
                             matches (Cat r1 r2) (c :: t)).
    { intros t Ht. inversion Ht; subst.
      change (c :: s1 ++ s2) with ((c :: s1) ++ s2). constructor; auto. }
    destruct (nullable r1) eqn:Hn; [|now apply Hcat].
    inversion H; subst; [now apply Hcat|].
    change (c :: s) with ([] ++ c :: s).
    constructor; [now apply nullable_matches|auto].
  - inversion H; subst; [apply m_alt_l|apply m_alt_r]; auto.
  - inversion H; subst.
    change (c :: s1 ++ s2) with ((c :: s1) ++ s2). constructor; auto.
Qed.

Lemma deriv_complete r t :
  matches r t -> forall c s, t = c :: s -> matches (deriv c r) s.
Proof.
  induction 1 as [|p c0 Hp|r1 r2 s1 s2 H1 IH1 H2 IH2|r1 r2 s0 H0 IH0
                  |r1 r2 s0 H0 IH0|r|r s1 s2 H1 IH1 H2 IH2];
    intros c s Ht; simpl.
  - discriminate Ht.
  - injection Ht as -> <-. rewrite Hp. constructor.
  - destruct s1 as [|c1 s1]; simpl in Ht.
    + subst s2. apply nullable_matches in H1. rewrite H1.
      apply m_alt_r. now apply IH2.
    + injection Ht as -> <-.
      assert (Hcat : matches (Cat (deriv c r1) r2) (s1 ++ s2)).
      { constructor; [now apply IH1|assumption]. }
      destruct (nullable r1); [now apply m_alt_l|assumption].
  - apply m_alt_l. now apply IH0.
  - apply m_alt_r. now apply IH0.
  - discriminate Ht.
  - destruct s1 as [|c1 s1]; simpl in Ht.
    + now apply IH2.
    + injection Ht as -> <-. constructor; [now apply IH1|assumption].
Qed.

(** [regex_test] decides the language of the pattern. *)
Lemma regex_test_matches s : forall r, regex_test r s = true <-> matches r s.
Proof.
  unfold regex_test. induction s as [|c s IH]; intros r; simpl.
  - apply nullable_matches.
  - rewrite IH. split; [apply deriv_sound|].
    intros H. now apply (deriv_complete r (c :: s)).
Qed.

Lemma matches_star_class p s :
  matches (Star (Class p)) s <-> Forall (fun c => p c = true) s.
Proof.
  split.
  - intros H. remember (Star (Class p)) as r eqn:Hr.
    induction H; try discriminate Hr; [constructor|].
    injection Hr as ->. inversion H; subst. constructor; auto.
  - induction 1 as [|c s Hc _ IH]; [constructor|].
    change (c :: s) with ([c] ++ s). constructor; [now constructor|assumption].
Qed.

Lemma matches_plus_class p s :
  matches (Plus (Class p)) s <-> s <> [] /\ Forall (fun c => p c = true) s.
Proof.
  unfold Plus. split.
  - intros H. inversion H as [| |r1 r2 s1 s2 H1 H2| | | |]; subst.
    inversion H1; subst. apply matches_star_class in H2.
    split; [discriminate|now constructor].
  - intros [Hne Hall]. destruct Hall as [|c s Hc Hs]; [congruence|].
    change (c :: s) with ([c] ++ s).
    constructor; [now constructor|now apply matches_star_class].
Qed.

(** The strings [emailRegex] accepts: three non-empty stretches free of
    white space and of [@], separated by an [@] and a dot. *)
Lemma emailRegex_shape s :
  regex_test emailRegex s = true <->
  exists a b c,
    s = a ++ 64 :: b ++ 46 :: c /\
    (a <> [] /\ Forall (fun x => notSpaceAt x = true) a) /\
    (b <> [] /\ Forall (fun x => notSpaceAt x = true) b) /\
    (c <> [] /\ Forall (fun x => notSpaceAt x = true) c).
Proof.
  rewrite regex_test_matches. unfold emailRegex. split.
  - intros H.
    inversion H as [| |? ? a t1 Ha H1| | | |]; subst.
    inversion H1 as [| |? ? at_ t2 Hat H2| | | |]; subst.
    inversion H2 as [| |? ? b t3 Hb H3| | | |]; subst.
    inversion H3 as [| |? ? dot c Hdot Hc| | | |]; subst.
    inversion Hat as [|? x Hx| | | | |]; subst. apply N.eqb_eq in Hx as <-.
    inversion Hdot as [|? y Hy| | | | |]; subst. apply N.eqb_eq in Hy as <-.
    exists a, b, c. split; [reflexivity|].
    now rewrite <- !matches_plus_class.
  - intros (a & b & c & -> & Ha & Hb & Hc).
    apply matches_plus_class in Ha, Hb, Hc.
    constructor; [assumption|].
    change (64 :: b ++ 46 :: c) with ([64] ++ b ++ [46] ++ c).
    constructor; [now constructor|].
    constructor; [assumption|].
    constructor; [now constructor|assumption].
Qed.

(** ** Lemmas on the pipeline *)

(** Unfolds the monad. *)
Ltac run := unfold bind, ret, throw, gets, modify, try_catch, fail.

Section Pipeline.

Variable host : Host.t.
Implicit Types (s : Locals host) (line t fileId : jsstring).

Local Opaque BATCH_SIZE.

Lemma validateAge_cases age s :
  (exists a, validateAge host age s = (inr a, s)) \/
  (exists msg, validateAge host age s
     = (inl (mkError msg),
        set_errorCategories (increment invalidAge (errorCategories s)) s)).
Proof.
  unfold validateAge. destruct age as [age|]; [|left; now eexists].
  destruct (negb (blank age)); [|left; now eexists].
  destruct (parseInt (trim age)) as [n|]; [|right; now eexists].
  destruct ((n <? 0)%Z || (150 <? n)%Z); [right|left]; now eexists.
Qed.

Lemma validate_cases fields fileId s :
  (exists record, validate host fields fileId s = (inr record, s)) \/
  (exists c msg, c <> other /\
     validate host fields fileId s
     = (inl (mkError msg),
        set_errorCategories (increment c (errorCategories s)) s)).
Proof.
  unfold validate.
  destruct fields as [|name [|email rest]];
    try (right; exists malformedLine; eexists; split; [discriminate|reflexivity]).
  run. destruct (blank name).
  { right; exists missingFields; eexists; split; [discriminate|reflexivity]. }
  destruct (blank email).
  { right; exists missingFields; eexists; split; [discriminate|reflexivity]. }
  destruct (negb (regex_test emailRegex (trim email))).
  { right; exists invalidEmail; eexists; split; [discriminate|reflexivity]. }
  destruct (validateAge_cases (rest !! 0%nat) s) as [[a ->]|[msg ->]].
  - left; now eexists.
  - right; exists invalidAge; eexists; split; [discriminate|reflexivity].
Qed.

Lemma tryBlock_outcome t fileId s :
  TryOutcome (parseCSVLine t) fileId s
    (tryBlock host t fileId s).1 (tryBlock host t fileId s).2.
Proof.
  unfold tryBlock. run.
  destruct (validate_cases (parseCSVLine t) fileId s)
    as [[record Hvalid]|(c & msg & Hc & Hvalid)]; rewrite Hvalid; simpl.
  2: now constructor.
  destruct (Nat.leb_spec BATCH_SIZE (length (batch s ++ [record]))) as [Hfull|Hroom].
  - unfold insertMany. simpl.
    destruct (Host.Record_insertMany host (batch s ++ [record]) (env s))
      as [[err|] e] eqn:Hins; simpl.
    + now apply (try_rejected _ _ s record err e).
    + now apply (try_flushed _ _ s record e).
  - now apply try_batched.
Qed.

Lemma catchBlock_eq t err s :
  catchBlock host t err s
  = (inr tt,
     let s1 := set_failedLines (failedLines s + 1) s in
     let s2 :=
       if namedCategoriesAllZero (errorCategories s1)
       then set_errorCategories (increment other (errorCategories s1)) s1
       else s1 in
     if (length (errors s2) <? 50)%nat
     then set_errors
            (errors s2 ++
             [ErrorSample.mk (totalLines s2 + 1) (message err)
                (substring0 100 t)]) s2
     else s2).
Proof.
  unfold catchBlock. run. simpl.
  destruct (namedCategoriesAllZero (errorCategories s)); simpl;
    now destruct (length (errors s) <? 50)%nat.
Qed.

Lemma processLine_header fileId line s :
  isFirstLine s = true ->
  processLine host fileId line s = (inr tt, set_isFirstLine false s).
Proof. intros H. unfold processLine. run. now rewrite H. Qed.

Lemma processLine_skipped fileId line s :
  isFirstLine s = false ->
  trim line = [] \/ trim line = str ",,," ->
  processLine host fileId line s = (inr tt, s).
Proof.
  intros H Hskip. unfold processLine. run. rewrite H.
  destruct Hskip as [-> | ->]; reflexivity.
Qed.

Lemma processLine_counted fileId line s :
  isFirstLine s = false ->
  trim line <> [] -> trim line <> str ",,," ->
  processLine host fileId line s
  = try_catch (tryBlock host (trim line) fileId) (catchBlock host (trim line))
      (set_totalLines (totalLines s + 1) s).
Proof.
  intros H Hne Hnc. unfold processLine. run. rewrite H.
  destruct (trim line) as [|c r] eqn:Ht; [congruence|]. simpl.
  unfold jsstring_eqb. now rewrite bool_decide_eq_false_2.
Qed.

(** What one turn of the loop does: it never throws. *)
Lemma processLine_cases fileId line s :
  exists s', processLine host fileId line s = (inr tt, s') /\
    ((isFirstLine s = true /\ s' = set_isFirstLine false s) \/
     (isFirstLine s = false /\ (trim line = [] \/ trim line = str ",,,") /\
      s' = s) \/
     (isFirstLine s = false /\ trim line <> [] /\ trim line <> str ",,," /\
      exists r s1,
        tryBlock host (trim line) fileId (set_totalLines (totalLines s + 1) s)
          = (r, s1) /\
        TryOutcome (parseCSVLine (trim line)) fileId
          (set_totalLines (totalLines s + 1) s) r s1 /\
        match r with
        | inr _ => s' = s1
        | inl err => catchBlock host (trim line) err s1 = (inr tt, s')
        end)).
Proof.
  destruct (isFirstLine s) eqn:Hfirst.
  { eexists; split; [now apply processLine_header|]. now left. }
  destruct (decide (trim line = [])) as [Hnil|Hnil].
  { exists s; split; [apply processLine_skipped; auto|]. right; left; auto. }
  destruct (decide (trim line = str ",,,")) as [Hc|Hc].
  { exists s; split; [apply processLine_skipped; auto|]. right; left; auto. }
  rewrite processLine_counted by assumption. unfold try_catch.
  pose proof (tryBlock_outcome (trim line) fileId
                (set_totalLines (totalLines s + 1) s)) as Hout.
  destruct (tryBlock host (trim line) fileId _) as [[err|[]] s1] eqn:Htry;
    simpl in Hout.
  - rewrite catchBlock_eq. eexists; split; [reflexivity|].
    right; right. repeat split; try assumption.
    exists (inl err), s1. repeat split; [assumption|].
    now rewrite catchBlock_eq.
  - exists s1; split; [reflexivity|].
    right; right. repeat split; try assumption.
    exists (inr tt), s1. now repeat split.
Qed.

Lemma processLine_total fileId line s :
  exists s', processLine host fileId line s = (inr tt, s').
Proof.
  destruct (processLine_cases fileId line s) as (s' & H & _). eauto.
Qed.

Lemma forEach_app {S X A} (f : A -> M S X unit) (l1 l2 : list A) (s : S) :
  forEach f (l1 ++ l2) s
  = match forEach f l1 s with
    | (inl x, s') => (inl x, s')
    | (inr _, s') => forEach f l2 s'
    end.
Proof.
  revert s. induction l1 as [|a l1 IH]; intros s; simpl; [reflexivity|].
  unfold bind. destruct (f a s) as [[x|[]] s']; [reflexivity|apply IH].
Qed.

(** The loop never throws, and keeps what every turn keeps. *)
Lemma forEach_invariant (P : Locals host -> Prop) fileId :
  (forall line s s',
      P s -> processLine host fileId line s = (inr tt, s') -> P s') ->
  forall lines s, P s ->
    exists s', forEach (processLine host fileId) lines s = (inr tt, s') /\ P s'.
Proof.
  intros Hstep lines. induction lines as [|line lines IH]; intros s Hs.
  - exists s. now split.
  - simpl. unfold bind.
    destruct (processLine_total fileId line s) as [s1 H1]. rewrite H1.
    apply IH. eapply Hstep; eauto.
Qed.

Lemma forEach_total fileId lines s :
  exists s', forEach (processLine host fileId) lines s = (inr tt, s').
Proof.
  destruct (forEach_invariant (fun _ => True) fileId (fun _ _ _ _ _ => I)
              lines s I) as (s' & H & _).
  eauto.
Qed.

(** Unless its [insertMany] rejects, a turn keeps every counted line in
    exactly one of: inserted, waiting in the batch, failed. *)
Lemma processLine_accounts fileId line s s' :
  (isFirstLine s = false -> trim line <> [] -> trim line <> str ",,," ->
   forall record err e1,
     validate host (parseCSVLine (trim line)) fileId
       (set_totalLines (totalLines s + 1) s)
     = (inr record, set_totalLines (totalLines s + 1) s) ->
     (BATCH_SIZE <= length (batch s ++ [record]))%nat ->
     Host.Record_insertMany host (batch s ++ [record]) (env s)
     <> (Some err, e1)) ->
  (successfulInserts s + length (batch s) + failedLines s = totalLines s)%nat ->
  processLine host fileId line s = (inr tt, s') ->
  (successfulInserts s' + length (batch s') + failedLines s' = totalLines s')%nat.
Proof.
  intros Hok Hinv Hline.
  destruct (processLine_cases fileId line s) as (s1 & H1 & Hcases).
  rewrite H1 in Hline. injection Hline as <-.
  destruct Hcases
    as [[_ ->]|[(_ & _ & ->)|(Hflag & Hne & Hnc & r & s2 & _ & Hout & Hr)]];
    [assumption|assumption|].
  destruct Hout as [c msg Hc Hvalid|record Hvalid Hroom
                    |record e Hvalid Hfull Hins|record err e Hvalid Hfull Hins].
  - rewrite catchBlock_eq in Hr. injection Hr as <-. simpl.
    destruct (namedCategoriesAllZero _); simpl;
      destruct (length (errors s) <? 50)%nat; simpl; lia.
  - subst s1. simpl. rewrite length_app. simpl. lia.
  - subst s1. simpl. rewrite length_app. simpl. lia.
  - now destruct (Hok Hflag Hne Hnc record err e Hvalid Hfull).
Qed.

Lemma MidStreamRejection_later fileStream line fileId e err :
  MidStreamRejection host fileStream fileId e err ->
  MidStreamRejection host (fileStream ++ [line]) fileId e err.
Proof.
  intros (pre & l & post & s & record & e1 & -> & H).
  exists pre, l, (post ++ [line]), s, record, e1.
  split; [now rewrite <- app_assoc|exact H].
Qed.

(** The accounts of a run none of whose mid-stream flushes rejects. *)
Lemma run_accounts fileId e fileStream : forall s,
  (forall err, ~ MidStreamRejection host fileStream fileId e err) ->
  forEach (processLine host fileId) fileStream (initialLocals host e)
    = (inr tt, s) ->
  (successfulInserts s + length (batch s) + failedLines s = totalLines s)%nat.
Proof.
  induction fileStream as [|line done IH] using rev_ind; intros s Hno Hrun.
  - now injection Hrun as <-.
  - rewrite forEach_app in Hrun.
    destruct (forEach_total fileId done (initialLocals host e)) as [s0 H0].
    rewrite H0 in Hrun. simpl in Hrun. unfold bind, ret in Hrun.
    destruct (processLine_total fileId line s0) as [s1 H1].
    rewrite H1 in Hrun. injection Hrun as <-.
    apply (processLine_accounts fileId line s0 s1); [| |assumption].
    + intros Hflag Hne Hnc record err e1 Hvalid Hfull Hins.
      apply (Hno err). exists done, line, [], s0, record, e1.
      now repeat split.
    + apply IH; [|assumption].
      intros err Hrej. apply (Hno err). now apply MidStreamRejection_later.
Qed.

Lemma TryOutcome_isFirstLine fields fileId s r s' :
  TryOutcome fields fileId s r s' -> isFirstLine s' = isFirstLine s.
Proof. now destruct 1. Qed.

Lemma catchBlock_isFirstLine t err s s' :
  catchBlock host t err s = (inr tt, s') -> isFirstLine s' = isFirstLine s.
Proof.
  rewrite catchBlock_eq. intros [= <-]. simpl.
  destruct (namedCategoriesAllZero _); simpl;
    now destruct (length (errors s) <? 50)%nat.
Qed.

(** After any turn the header has been consumed. *)
Lemma processLine_isFirstLine fileId line s s' :
  processLine host fileId line s = (inr tt, s') -> isFirstLine s' = false.
Proof.
  intros Hline.
  destruct (processLine_cases fileId line s) as (s1 & H1 & Hcases).
  rewrite H1 in Hline. injection Hline as <-.
  destruct Hcases as [[_ ->]|[(H & _ & ->)|(H & _ & _ & r & s2 & _ & Hout & Hr)]];
    [reflexivity|assumption|].
  apply TryOutcome_isFirstLine in Hout. simpl in Hout.
  destruct r as [err|[]].
  - apply catchBlock_isFirstLine in Hr. congruence.
  - congruence.
Qed.

Lemma forEach_isFirstLine fileId lines s s' :
  isFirstLine s = false ->
  forEach (processLine host fileId) lines s = (inr tt, s') ->
  isFirstLine s' = false.
Proof.
  intros Hs Hrun.
  destruct (forEach_invariant (fun s => isFirstLine s = false) fileId
              (fun line s s' _ H => processLine_isFirstLine fileId line s s' H)
              lines s Hs) as (s1 & H1 & HP).
  congruence.
Qed.

(** A skipped line after the header can be dropped from the stream. *)
Lemma forEach_skip fileId h pre line post s :
  trim line = [] \/ trim line = str ",,," ->
  forEach (processLine host fileId) (h :: pre ++ line :: post) s
  = forEach (processLine host fileId) (h :: pre ++ post) s.
Proof.
  intros Hskip.
  change (h :: pre ++ line :: post) with ((h :: pre) ++ [line] ++ post).
  change (h :: pre ++ post) with ((h :: pre) ++ post).
  rewrite !forEach_app.
  destruct (forEach_total fileId (h :: pre) s) as [s1 H1]. rewrite H1.
  assert (Hflag : isFirstLine s1 = false).
  { simpl in H1. unfold bind in H1.
    destruct (processLine_total fileId h s) as [s0 H0]. rewrite H0 in H1.
    apply processLine_isFirstLine in H0.
    eapply forEach_isFirstLine; eauto. }
  simpl. unfold bind. now rewrite processLine_skipped.
Qed.

Lemma named_category_counted c cats :
c <> other -> namedCategoriesAllZero (increment c cats) = false.
Proof.
intros Hc. destruct cats as [mf ie ia ml ot].
destruct c; try congruence; unfold namedCategoriesAllZero; simpl;
  destruct mf, ie, ia, ml; reflexivity.
Qed.


Lemma TryOutcome_errors fields fileId s r s' :
  TryOutcome fields fileId s r s' ->
  errors s' = errors s /\ totalLines s' = totalLines s.
Proof. now destruct 1. Qed.

End Pipeline.

(** ** Claims on the ingestion pipeline *)

(** C1. When every bulk [insertMany] call of the run succeeds,
    [processFileContent] returns a result, and its counts satisfy
    [successfulInserts + failedLines = totalLines]. *)
Theorem C1_counts_add_up (host : Host.t) (fileStream : list jsstring)
    (fileId : jsstring) (e : Host.E host) :
  everyInsertSucceeds host fileStream fileId e ->
  exists result e',
    processFileContent host fileStream fileId e = (inr result, e') /\
    (Result.successfulInserts result + Result.failedLines result
     = Result.totalLines result)%nat.
Proof.
  intros Hok. unfold processFileContent, processFileContent_body.
  destruct (forEach_total host fileId fileStream (initialLocals host e))
    as [s Hrun].
  pose proof (run_accounts host fileId e fileStream s
                (fun err => proj1 (Hok err)) Hrun) as Hinv.
  unfold bind at 1. rewrite Hrun.
  unfold finalFlush, bind, gets, modify, ret, insertMany.
  destruct (Nat.ltb_spec 0 (length (batch s))) as [Hn|Hn].
  - destruct (Host.Record_insertMany host (batch s) (env s)) as [[err|] e1]
      eqn:Hins.
    + exfalso. apply (proj2 (Hok err)). exists s, e1.
      split; [assumption|]. split; [|assumption].
      intros Hb. rewrite Hb in Hn. simpl in Hn. lia.
    + simpl. do 2 eexists. split; [reflexivity|]. simpl. lia.
  - simpl. do 2 eexists. split; [reflexivity|]. simpl. lia.
Qed.

(** C1 at a stream of a header, a valid line, a line with a bad email
    and a blank line, on the host whose calls all succeed. *)
Lemma C1_counts_add_up_witness :
  exists result e',
    processFileContent reliable [header; goodLine; badEmailLine; str "  "]
      (str "file-1") 0%nat = (inr result, e') /\
    (Result.successfulInserts result + Result.failedLines result
     = Result.totalLines result)%nat.
Proof.
  apply (C1_counts_add_up reliable). intros err. split.
  - intros (pre & line & post & s & record & e1 & H).
    destruct H as (_ & _ & _ & _ & _ & _ & _ & H). discriminate H.
  - intros (s & e' & _ & _ & H). discriminate H.
Defined.

(** C6. The first line is discarded whatever it holds: reading it only
    clears [isFirstLine], and the outcome of a run does not depend on
    it.  A later line whose trimmed form is empty or [,,,] leaves every
    variable of the run as it was (it adds to neither [totalLines] nor
    [failedLines] nor any category), and the outcome of a run is the
    same with or without it. *)
Theorem C6_header_and_blank_lines (host : Host.t) (fileId : jsstring) :
  (forall line (s : Locals host),
      isFirstLine s = true ->
      processLine host fileId line s = (inr tt, set_isFirstLine false s)) /\
  (forall h h' rest e,
      processFileContent host (h :: rest) fileId e
      = processFileContent host (h' :: rest) fileId e) /\
  (forall line (s : Locals host),
      isFirstLine s = false ->
      trim line = [] \/ trim line = str ",,," ->
      processLine host fileId line s = (inr tt, s)) /\
  (forall h pre line post e,
      trim line = [] \/ trim line = str ",,," ->
      processFileContent host (h :: pre ++ line :: post) fileId e
      = processFileContent host (h :: pre ++ post) fileId e).
Proof.
  split; [|split; [|split]].
  - intros line s H. now apply processLine_header.
  - intros h h' rest e. unfold processFileContent, processFileContent_body.
    simpl. unfold bind at 1 3. unfold bind at 1 3.
    now rewrite !processLine_header.
  - intros line s H Hskip. now apply processLine_skipped.
  - intros h pre line post e Hskip.
    unfold processFileContent, processFileContent_body.
    unfold bind at 1 3. now rewrite forEach_skip.
Qed.

(** C6 at a state past the header and at a stream with a blank line
    between a valid line and a line with a bad email. *)
Lemma C6_header_and_blank_lines_witness :
  processLine reliable (str "file-1") (str "  ,,, ")
    (set_isFirstLine false (initialLocals reliable 0%nat))
  = (inr tt, set_isFirstLine false (initialLocals reliable 0%nat)) /\
  processFileContent reliable
    (header :: [goodLine] ++ str "   " :: [badEmailLine]) (str "file-1") 0%nat
  = processFileContent reliable
      (header :: [goodLine] ++ [badEmailLine]) (str "file-1") 0%nat.
Proof.
  destruct (C6_header_and_blank_lines reliable (str "file-1"))
    as (_ & _ & Hline & Hrun).
  split.
  - apply Hline; [reflexivity|right; reflexivity].
  - apply Hrun. left; reflexivity.
Defined.

(** ** The error samples *)

Section Samples.

Variable host : Host.t.
Variable fileId : jsstring.
Variable e : Host.E host.

Lemma FailureAt_bound fileStream k sample :
  FailureAt host fileStream fileId e k sample -> (k < length fileStream)%nat.
Proof.
  intros (pre & line & post & s & err & s1 & -> & <- & _).
  rewrite length_app. simpl. lia.
Qed.

Lemma FailureAt_later fileStream line k sample :
  FailureAt host fileStream fileId e k sample ->
  FailureAt host (fileStream ++ [line]) fileId e k sample.
Proof.
  intros (pre & l & post & s & err & s1 & -> & H).
  exists pre, l, (post ++ [line]), s, err, s1.
  split; [now rewrite <- app_assoc|exact H].
Qed.

(** A failure of the stream with one more line is a failure of the
    stream, or the failure of the last line. *)
Lemma FailureAt_last done line k sample :
  FailureAt host (done ++ [line]) fileId e k sample ->
  FailureAt host done fileId e k sample \/
  (k = length done /\
   exists s err s1,
     forEach (processLine host fileId) done (initialLocals host e)
       = (inr tt, s) /\
     isFirstLine s = false /\ trim line <> [] /\ trim line <> str ",,," /\
     tryBlock host (trim line) fileId (set_totalLines (totalLines s + 1) s)
       = (inl err, s1)).
Proof.
  intros (pre & l & post & s & err & s1 & Heq & Hk & Hrun & Hflag & Hne
          & Hnc & Htry & Hrest).
  destruct post as [|p post _] using rev_ind.
  - apply app_inj_tail in Heq as [-> ->]. right.
    split; [now symmetry|]. now exists s, err, s1.
  - rewrite app_comm_cons, app_assoc in Heq.
    apply app_inj_tail in Heq as [-> _]. left.
    now exists pre, l, post, s, err, s1.
Qed.

Lemma Increasing_snoc ks k :
  Increasing ks -> Forall (fun k' => (k' < k)%nat) ks -> Increasing (ks ++ [k]).
Proof.
  intros Hinc Hlt i j a b Hij Ha Hb.
  destruct (decide (j < length ks)%nat) as [Hj|Hj].
  - rewrite lookup_app_l in Ha by lia. rewrite lookup_app_l in Hb by lia.
    eauto.
  - rewrite lookup_app_r in Hb by lia.
    destruct (j - length ks)%nat as [|n] eqn:Hn; [|now destruct n].
    injection Hb as <-.
    rewrite lookup_app_l in Ha by lia.
    rewrite list.Forall_forall in Hlt. apply Hlt.
    eapply list_elem_of_lookup_2; eauto.
Qed.

(** The samples retained during a run are those of its first 50
    failing lines, in file order. *)
Lemma retained_first_failures fileStream : forall s,
  forEach (processLine host fileId) fileStream (initialLocals host e)
    = (inr tt, s) ->
  (length (errors s) <= 50)%nat /\
  FirstFailures host fileStream fileId e 50 (errors s).
Proof.
  induction fileStream as [|line done IH] using rev_ind; intros s Hrun.
  - injection Hrun as <-. simpl. split; [lia|].
    exists []. split; [constructor|]. split; [intros i j a b _ H; discriminate H|].
    intros k sample H. apply FailureAt_bound in H. simpl in H. lia.
  - rewrite forEach_app in Hrun.
    destruct (forEach_total host fileId done (initialLocals host e))
      as [s0 H0].
    rewrite H0 in Hrun. simpl in Hrun. unfold bind, ret in Hrun.
    destruct (processLine_cases host fileId line s0) as (s1 & H1 & Hcases).
    rewrite H1 in Hrun. injection Hrun as <-.
    destruct (IH s0 H0) as [Hlen (ks & Hall & Hinc & Hcomplete)].
    assert (Hbound : Forall (fun k' => (k' < length done)%nat) ks).
    { apply list.Forall_forall. intros k Hk.
      apply list_elem_of_lookup in Hk as [i Hi].
      edestruct @Forall2_lookup_l as (sample & _ & Hf);
        [exact Hall|exact Hi|].
      now apply FailureAt_bound in Hf. }
    assert (Hlater : Forall2 (FailureAt host (done ++ [line]) fileId e) ks
                       (errors s0)).
    { revert Hall. apply Forall2_impl.
      intros k sample. apply FailureAt_later. }
    (* the line does not fail *)
    assert (Hkeep : errors s1 = errors s0 ->
              (forall s err s2,
                 forEach (processLine host fileId) done (initialLocals host e)
                   = (inr tt, s) ->
                 isFirstLine s = false -> trim line <> [] ->
                 trim line <> str ",,," ->
                 tryBlock host (trim line) fileId
                   (set_totalLines (totalLines s + 1) s) = (inl err, s2) ->
                 False) ->
              (length (errors s1) <= 50)%nat /\
              FirstFailures host (done ++ [line]) fileId e 50 (errors s1)).
    { intros -> Hnot. split; [assumption|].
      exists ks. split; [assumption|]. split; [assumption|].
      intros k sample Hf. apply FailureAt_last in Hf
        as [Hf|(_ & s & err & s2 & Hs & Hflag & Hne & Hnc & Htry)].
      - now apply Hcomplete in Hf.
      - exfalso. eauto. }
    destruct Hcases
      as [[Hfirst ->]|[(_ & Hskip & ->)
                      |(Hflag & Hne & Hnc & r & s2 & Htry & Hout & Hr)]].
    + apply Hkeep; [reflexivity|].
      intros s err s2 Hs Hflag _ _ _. congruence.
    + apply Hkeep; [reflexivity|].
      intros s err s2 _ _ Hne Hnc _. now destruct Hskip.
    + apply TryOutcome_errors in Hout as [Herrs Htotal].
      simpl in Herrs, Htotal.
      destruct r as [err|[]].
      2: { subst s2. apply Hkeep; [assumption|].
           intros s err s3 Hs _ _ _ Htry'.
           assert (s = s0) by congruence. subst s.
           rewrite Htry in Htry'. discriminate Htry'. }
      rewrite catchBlock_eq in Hr. injection Hr as <-.
      cbv zeta.
      set (s3 := if namedCategoriesAllZero _ then _ else _).
      assert (H3 : errors s3 = errors s2 /\ totalLines s3 = totalLines s2).
      { subst s3. now destruct (namedCategoriesAllZero _). }
      destruct H3 as [H3 H3'].
      assert (Hks : length ks = length (errors s0))
        by now apply Forall2_length in Hall.
      destruct (Nat.ltb_spec (length (errors s3)) 50) as [Hroom|Hfull].
      * simpl. rewrite length_app. simpl. split; [lia|].
        rewrite H3, Herrs.
        exists (ks ++ [length done]). split; [|split].
        -- apply Forall2_app; [assumption|].
           apply Forall2_cons_2; [|apply Forall2_nil_2].
           exists done, line, [], s0, err, s2.
           split; [reflexivity|]. split; [reflexivity|].
           split; [assumption|]. split; [assumption|].
           split; [assumption|]. split; [assumption|].
           split; [assumption|]. split; [assumption|]. simpl.
           split; [now rewrite H3'|]. split; [reflexivity|].
           unfold substring0. split.
           ++ exists (drop 100 (trim line)). now rewrite take_drop.
           ++ now rewrite length_take.
        -- now apply Increasing_snoc.
        -- intros k sample Hf. left. apply elem_of_app.
           apply FailureAt_last in Hf as [Hf|[-> _]].
           ++ apply Hcomplete in Hf as [Hin|[H50 _]]; [now left|].
              rewrite H3, Herrs in Hroom. lia.
           ++ right. now left.
      * assert (errors s3 = errors s0) by congruence.
        split; [congruence|].
        replace (errors s3) with (errors s0).
        exists ks. split; [assumption|]. split; [assumption|].
        intros k sample Hf. apply FailureAt_last in Hf as [Hf|[-> _]].
        -- now apply Hcomplete in Hf.
        -- right. split; [|assumption]. rewrite H3, Herrs in Hfull. lia.
Qed.

Lemma Increasing_take n ks : Increasing ks -> Increasing (take n ks).
Proof.
  intros Hinc i j a b Hij Ha Hb.
  apply lookup_take_Some in Ha as [Ha _].
  apply lookup_take_Some in Hb as [Hb _]. eauto.
Qed.

(** The first [n] of the samples of the first [m] failures are the
    samples of the first [n] failures. *)
Lemma FirstFailures_take fileStream n m samples :
  (n <= m)%nat ->
  FirstFailures host fileStream fileId e m samples ->
  FirstFailures host fileStream fileId e n (take n samples).
Proof.
  intros Hnm (ks & Hall & Hinc & Hcomplete).
  exists (take n ks). split; [now apply Forall2_take|].
  split; [now apply Increasing_take|].
  intros k sample Hf.
  assert (Hcut : forall i, ks !! i = Some k -> (n <= i)%nat ->
            length (take n ks) = n /\
            Forall (fun k' => (k' < k)%nat) (take n ks)).
  { intros i Hi Hni. apply lookup_lt_Some in Hi as Hlt.
    split; [rewrite length_take; lia|].
    apply list.Forall_forall. intros k' Hk'.
    apply list_elem_of_lookup in Hk' as [j Hj].
    apply lookup_take_Some in Hj as [Hj Hjn].
    apply (Hinc j i k' k); [lia|assumption|assumption]. }
  apply Hcomplete in Hf as [Hin|[Hm Hlt]].
  - apply list_elem_of_lookup in Hin as [i Hi].
    destruct (decide (i < n)%nat) as [Hin|Hin].
    + left. apply list_elem_of_lookup. exists i.
      now apply lookup_take_Some.
    + right. apply (Hcut i Hi). lia.
  - right. split; [rewrite length_take; lia|].
    now apply Forall_take.
Qed.

End Samples.

(** C7. The [errors] list of a returned result has at most 10 entries.
    They are the samples of the first 10 failing lines of the run, in
    file order (of all the failing lines when there are fewer): the
    first 10 of the at most 50 samples retained during the run, which
    are those of its first 50 failing lines.  The sample of a failing
    line holds [totalLines + 1] at the moment of the failure as its line
    number, the message of the error caught, and the first 100 code
    units of the trimmed line. *)
Theorem C7_error_samples (host : Host.t) (fileStream : list jsstring)
    (fileId : jsstring) (e : Host.E host) (result : Result.t)
    (e' : Host.E host) :
  processFileContent host fileStream fileId e = (inr result, e') ->
  (length (Result.errors result) <= 10)%nat /\
  FirstFailures host fileStream fileId e 10 (Result.errors result) /\
  exists retained : list ErrorSample.t,
    (length retained <= 50)%nat /\
    Result.errors result = take 10 retained /\
    FirstFailures host fileStream fileId e 50 retained.
Proof.
  unfold processFileContent, processFileContent_body. intros Hrun.
  destruct (forEach_total host fileId fileStream (initialLocals host e))
    as [s Hs].
  unfold bind at 1 in Hrun. rewrite Hs in Hrun.
  destruct (retained_first_failures host fileId e fileStream s Hs)
    as [Hlen Hfirst].
  assert (Herrs : Result.errors result = take 10 (errors s)).
  { unfold finalFlush, bind, gets, modify, ret, insertMany in Hrun.
    destruct (0 <? length (batch s))%nat.
    - destruct (Host.Record_insertMany host (batch s) (env s)) as [[err|] e1];
        simpl in Hrun; [discriminate Hrun|].
      now injection Hrun as <- _.
    - simpl in Hrun. now injection Hrun as <- _. }
  split; [rewrite Herrs, length_take; lia|].
  split.
  - rewrite Herrs. apply FirstFailures_take with 50%nat; [lia|assumption].
  - exists (errors s). now repeat split.
Qed.

(** C7 at a stream of a header, a valid line and a line with a bad
    email. *)
Lemma C7_error_samples_witness :
  processFileContent reliable [header; goodLine; badEmailLine] (str "file-1")
    0%nat = (inr oneBadEmail, 1%nat) /\
  (length (Result.errors oneBadEmail) <= 10)%nat /\
  FirstFailures reliable [header; goodLine; badEmailLine] (str "file-1")
    0%nat 10 (Result.errors oneBadEmail) /\
  exists retained : list ErrorSample.t,
    (length retained <= 50)%nat /\
    Result.errors oneBadEmail = take 10 retained /\
    FirstFailures reliable [header; goodLine; badEmailLine] (str "file-1")
      0%nat 50 retained.
Proof.
  split; [reflexivity|].
  apply (C7_error_samples reliable [header; goodLine; badEmailLine]
           (str "file-1") 0%nat oneBadEmail 1%nat).
  reflexivity.
Defined.

(** ** Claims on the line parser *)

Lemma strip_quotes_none line : dquote ∉ line -> strip_quotes line = line.
Proof.
  induction line as [|c line IH]; intros Hq; [reflexivity|].
  rewrite strip_quotes_cons.
  destruct (N.eqb_spec c dquote) as [->|_].
  - exfalso. apply Hq. now left.
  - f_equal. apply IH. intros H. apply Hq. now right.
Qed.

Lemma no_comma_no_split line : comma ∉ line -> forall i, ~ split_point line i.
Proof.
  intros Hc i [Hi _]. apply Hc. eapply list_elem_of_lookup_2; eauto.
Qed.

(** C8, as amended.  [parseCSVLine] splits at the commas that an even
    number of quote characters precedes, every quote character toggling
    the state and none being kept or escaped: with no such comma the
    result is the single field made of the line without its quote
    characters (the whole line when it has neither comma nor quote);
    otherwise the first field is the stretch before the first such
    comma, without its quote characters, and the other fields are those
    of the rest of the line.  The result always has at least one field,
    and the quoted name of the sample line is one field with its
    comma. *)
Theorem C8_parseCSVLine_fields (line : jsstring) :
  (1 <= length (parseCSVLine line))%nat /\
  ((forall i, ~ split_point line i) ->
     parseCSVLine line = [strip_quotes line]) /\
  (dquote ∉ line -> comma ∉ line -> parseCSVLine line = [line]) /\
  (forall pre post,
      line = pre ++ comma :: post ->
      (forall i, ~ split_point pre i) ->
      outside_quotes line (length pre) ->
      parseCSVLine line = strip_quotes pre :: parseCSVLine post) /\
  parseCSVLine martinez_line
  = [str "Martinez, Carlos"; str "carlos@company.com"].
Proof.
  split; [apply parseCSVLine_nonempty|].
  split; [apply parseCSVLine_no_split|].
  split.
  { intros Hq Hc. rewrite parseCSVLine_no_split by now apply no_comma_no_split.
    now rewrite strip_quotes_none. }
  split; [|reflexivity].
  intros pre post -> Hpre Hout. apply parseCSVLine_split; [assumption|].
  unfold outside_quotes in Hout. now rewrite take_app_length in Hout.
Qed.

(** C8 at the sample line, split at the comma that follows the quoted
    name. *)
Lemma C8_parseCSVLine_fields_witness :
  parseCSVLine martinez_line
  = strip_quotes (dquote :: str "Martinez, Carlos" ++ [dquote])
    :: parseCSVLine (str "carlos@company.com").
Proof.
  destruct (C8_parseCSVLine_fields martinez_line) as (_ & _ & _ & Hsplit & _).
  apply (Hsplit (dquote :: str "Martinez, Carlos" ++ [dquote])).
  - reflexivity.
  - intros i [Hi Hout]. unfold outside_quotes in Hout.
    do 18 (destruct i as [|i]; [vm_compute in Hi, Hout; congruence|]).
    discriminate Hi.
  - reflexivity.
Defined.

(** C8 as stated fails: a quoted line without any comma is not returned
    whole, its quote characters are dropped. *)
Lemma C8_whole_line_counterexample :
  ~ (forall line,
       (forall i, ~ split_point line i) -> parseCSVLine line = [line]).
Proof.
  intros H. specialize (H [dquote; 97; dquote]).
  assert (Hno : forall i, ~ split_point [dquote; 97; dquote] i).
  { apply no_comma_no_split. intros Hin.
    repeat (apply elem_of_cons in Hin as [Hin|Hin]; [discriminate Hin|]).
    now apply elem_of_nil in Hin. }
  specialize (H Hno). discriminate H.
Qed.

(** ** Claims on the age field *)

Lemma isDecimalDigit_range c :
  isDecimalDigit c = true <-> 48 <= c <= 57.
Proof. unfold isDecimalDigit. rewrite andb_true_iff, !N.leb_le. tauto. Qed.

Lemma digitValue_10 c :
  digitValue 10 c = if isDecimalDigit c then Some (c - 48) else None.
Proof.
  unfold digitValue, isDecimalDigit.
  destruct (N.leb_spec 48 c), (N.leb_spec c 57),
    (N.leb_spec 97 c), (N.leb_spec c 122),
    (N.leb_spec 65 c), (N.leb_spec c 90); simpl;
    try reflexivity; try lia;
    match goal with
    | |- context [?a <? ?b] => destruct (N.ltb_spec a b)
    end; (reflexivity || lia).
Qed.

Lemma digits_prefix_10 ds c rest :
  forallb isDecimalDigit ds = true -> isDecimalDigit c = false ->
  digits_prefix 10 (ds ++ c :: rest) = map (fun c => c - 48) ds.
Proof.
  intros Hds Hc. induction ds as [|d ds IH]; simpl.
  - now rewrite digitValue_10, Hc.
  - simpl in Hds. apply andb_true_iff in Hds as [Hd Hds].
    rewrite digitValue_10, Hd. f_equal. now apply IH.
Qed.

Lemma digit_not_space c : isDecimalDigit c = true -> isWhiteSpace c = false.
Proof.
  rewrite isDecimalDigit_range. intros Hd. unfold isWhiteSpace.
  repeat match goal with
  | |- context [?a =? ?b] => destruct (N.eqb_spec a b); [lia|]
  end.
  destruct (N.leb_spec c 13); [lia|].
  destruct (N.leb_spec 8192 c); [lia|].
  now rewrite !andb_false_r.
Qed.

Lemma stripPrefix_decimal ds c rest :
  ds <> [] -> forallb isDecimalDigit ds = true -> isDecimalDigit c = false ->
  ~ hexPrefixed ds (c :: rest) ->
  stripPrefix (ds ++ c :: rest) = (10, ds ++ c :: rest).
Proof.
  intros Hne Hds Hc Hhex. destruct ds as [|d ds]; [congruence|].
  simpl in Hds. apply andb_true_iff in Hds as [Hd Hds].
  destruct ds as [|d' ds]; simpl.
  - destruct (N.eqb_spec d 48) as [->|_]; [|reflexivity]. simpl.
    destruct (N.eqb_spec c 120) as [->|_].
    { exfalso. apply Hhex. split; [reflexivity|]. exists rest. now left. }
    destruct (N.eqb_spec c 88) as [->|_]; [|reflexivity].
    exfalso. apply Hhex. split; [reflexivity|]. exists rest. now right.
  - simpl in Hds. apply andb_true_iff in Hds as [Hd' _].
    apply isDecimalDigit_range in Hd'.
    destruct (N.eqb_spec d' 120) as [?|_]; [lia|].
    destruct (N.eqb_spec d' 88) as [?|_]; [lia|].
    now rewrite andb_false_r.
Qed.

(** Outside the [0x] / [0X] case, [parseInt] reads the leading decimal
    integer and ignores what follows it. *)
Lemma parseInt_leading_integer s sign ds rest :
  LeadingInteger s sign ds rest -> ~ hexPrefixed ds rest ->
  parseInt s = Some (prefixValue sign ds).
Proof.
  intros (-> & Hsign & Hne & Hds & c & rest' & -> & Hc) Hhex.
  assert (Hbody : match digits_prefix 10 (ds ++ c :: rest') with
                  | [] => None
                  | ds' => Some (1 * Z.of_N (digits_value 10 ds'))%Z
                  end = Some (prefixValue [] ds)
                  /\ match digits_prefix 10 (ds ++ c :: rest') with
                  | [] => None
                  | ds' => Some (-1 * Z.of_N (digits_value 10 ds'))%Z
                  end = Some (prefixValue [45] ds)).
  { rewrite digits_prefix_10 by assumption. unfold prefixValue.
    destruct ds as [|d ds]; [congruence|]. now split. }
  destruct Hbody as [Hpos Hneg].
  pose proof (stripPrefix_decimal ds c rest' Hne Hds Hc Hhex) as Hstrip.
  destruct ds as [|d ds]; [congruence|].
  pose proof Hds as Hall. simpl in Hall. apply andb_true_iff in Hall as [Hd _].
  pose proof (digit_not_space d Hd) as Hsp.
  apply isDecimalDigit_range in Hd.
  assert (H45 : (d =? 45) = false) by (apply N.eqb_neq; lia).
  assert (H43 : (d =? 43) = false) by (apply N.eqb_neq; lia).
  simpl app in Hstrip. unfold parseInt.
  destruct Hsign as [-> | [-> | ->]]; simpl app.
  - simpl trimStart. rewrite Hsp. unfold splitSign.
    rewrite H45, H43, Hstrip. exact Hpos.
  - change (trimStart (43 :: d :: ds ++ c :: rest'))
      with (43 :: d :: ds ++ c :: rest').
    change (splitSign (43 :: d :: ds ++ c :: rest'))
      with (1%Z, d :: ds ++ c :: rest').
    cbv beta iota. rewrite Hstrip. exact Hpos.
  - change (trimStart (45 :: d :: ds ++ c :: rest'))
      with (45 :: d :: ds ++ c :: rest').
    change (splitSign (45 :: d :: ds ++ c :: rest'))
      with ((-1)%Z, d :: ds ++ c :: rest').
    cbv beta iota. rewrite Hstrip. exact Hneg.
Qed.

Section AgeField.

Variable host : Host.t.
Variables (name email fileId : jsstring) (rest : list jsstring).
Hypothesis name_given : blank name = false.
Hypothesis email_given : blank email = false.
Hypothesis email_shaped : regex_test emailRegex (trim email) = true.

(** With the name and email checks passed, the age decides. *)
Lemma validate_age_decides (s : Locals host) :
  validate host (name :: email :: rest) fileId s
  = match validateAge host (rest !! 0%nat) s with
    | (inl err, s') => (inl err, s')
    | (inr parsedAge, s') =>
        (inr (RecordDoc.mk (trim name) (Host.toLowerCase host (trim email))
                parsedAge
                (match rest !! 1%nat with
                 | Some d => if isEmpty d then None else Some (trim d)
                 | None => None
                 end)
                fileId), s')
    end.
Proof.
  unfold validate. rewrite name_given, email_given, email_shaped.
  unfold bind, ret. simpl.
  now destruct (validateAge host (rest !! 0%nat) s) as [[err|a] s'].
Qed.

Lemma accepts_no_age :
  rest !! 0%nat = None -> accepts host (name :: email :: rest) fileId None.
Proof.
  intros Hage s. rewrite validate_age_decides, Hage. simpl.
  eexists. now split.
Qed.

Lemma accepts_blank_age age :
  rest !! 0%nat = Some age -> blank age = true ->
  accepts host (name :: email :: rest) fileId None.
Proof.
  intros Hage Hblank s. rewrite validate_age_decides, Hage. simpl.
  rewrite Hblank. simpl. eexists. now split.
Qed.

Lemma rejects_non_numeric age :
  rest !! 0%nat = Some age -> blank age = false ->
  parseInt (trim age) = None ->
  rejects host (name :: email :: rest) fileId invalidAge.
Proof.
  intros Hage Hblank Hnan s. rewrite validate_age_decides, Hage. simpl.
  rewrite Hblank, Hnan. simpl. now eexists.
Qed.

Lemma rejects_out_of_range age n :
  rest !! 0%nat = Some age -> blank age = false ->
  parseInt (trim age) = Some n -> (n < 0 \/ 150 < n)%Z ->
  rejects host (name :: email :: rest) fileId invalidAge.
Proof.
  intros Hage Hblank Hn Hout s. rewrite validate_age_decides, Hage. simpl.
  rewrite Hblank, Hn. simpl.
  replace ((n <? 0)%Z || (150 <? n)%Z) with true by lia.
  now eexists.
Qed.

Lemma accepts_in_range age n :
  rest !! 0%nat = Some age -> blank age = false ->
  parseInt (trim age) = Some n -> (0 <= n <= 150)%Z ->
  accepts host (name :: email :: rest) fileId (Some n).
Proof.
  intros Hage Hblank Hn Hin s. rewrite validate_age_decides, Hage. simpl.
  rewrite Hblank, Hn. simpl.
  replace ((n <? 0)%Z || (150 <? n)%Z) with false by lia.
  eexists. now split.
Qed.

End AgeField.

Lemma rejects_invalidAge_counted (host : Host.t) (fields : list jsstring)
    (fileId : jsstring) :
  rejects host fields fileId invalidAge ->
  invalidAgeCounted host fields fileId.
Proof.
  intros Hrej s. destruct (Hrej s) as [msg Hv].
  do 2 eexists. split; [exact Hv|].
  destruct s as [t si f errs [mf ie ia ml ot] b first e].
  simpl. now repeat split.
Qed.

(** C9. On a line whose name and email pass their checks, an absent or
    blank age field is accepted and stored as null; a present non-blank
    one is parsed by [parseInt], and when the result is [NaN] or lies
    outside [0, 150] the checks throw with the [invalidAge] counter
    raised by one and no other counter touched; otherwise the value is
    stored.  So ["150"] is accepted, ["151"] and ["-1"] are counted
    under [invalidAge], [""] is accepted with a null age and ["abc"] is
    counted under [invalidAge]. *)
Theorem C9_age_validation (host : Host.t) (name email fileId : jsstring)
    (rest : list jsstring) :
  blank name = false -> blank email = false ->
  regex_test emailRegex (trim email) = true ->
  (rest !! 0%nat = None -> accepts host (name :: email :: rest) fileId None) /\
  (forall age, rest !! 0%nat = Some age ->
     (blank age = true -> accepts host (name :: email :: rest) fileId None) /\
     (blank age = false ->
        match parseInt (trim age) with
        | None => invalidAgeCounted host (name :: email :: rest) fileId
        | Some n =>
            if ((0 <=? n) && (n <=? 150))%Z
            then accepts host (name :: email :: rest) fileId (Some n)
            else invalidAgeCounted host (name :: email :: rest) fileId
        end)) /\
  accepts host [name; email; str "150"] fileId (Some 150%Z) /\
  invalidAgeCounted host [name; email; str "151"] fileId /\
  invalidAgeCounted host [name; email; str "-1"] fileId /\
  accepts host [name; email; str ""] fileId None /\
  invalidAgeCounted host [name; email; str "abc"] fileId.
Proof.
  intros Hname Hemail Hshape.
  split; [now apply accepts_no_age|].
  split.
  { intros age Hage. split; [now apply accepts_blank_age|].
    intros Hblank. destruct (parseInt (trim age)) as [n|] eqn:Hn.
    - destruct ((0 <=? n) && (n <=? 150))%Z eqn:Hrange.
      + eapply accepts_in_range; eauto. lia.
      + apply rejects_invalidAge_counted.
        eapply rejects_out_of_range; eauto. lia.
    - apply rejects_invalidAge_counted.
      eapply rejects_non_numeric; eauto. }
  split; [now apply (accepts_in_range host name email fileId _ Hname Hemail
                       Hshape (str "150"))|].
  split; [apply rejects_invalidAge_counted;
          apply (rejects_out_of_range host name email fileId _ Hname Hemail
                   Hshape (str "151") 151%Z); (reflexivity || lia)|].
  split; [apply rejects_invalidAge_counted;
          apply (rejects_out_of_range host name email fileId _ Hname Hemail
                   Hshape (str "-1") (-1)%Z); (reflexivity || lia)|].
  split; [now apply (accepts_blank_age host name email fileId _ Hname Hemail
                       Hshape (str ""))|].
  apply rejects_invalidAge_counted.
  now apply (rejects_non_numeric host name email fileId _ Hname Hemail
               Hshape (str "abc")).
Qed.

(** C9 at the fields of [goodLine], whose age is 30, and at the same
    name and email with the age [abc]. *)
Lemma C9_age_validation_witness :
  accepts reliable (parseCSVLine goodLine) (str "file-1") (Some 30%Z) /\
  invalidAgeCounted reliable
    [str "John Doe"; str "john@company.com"; str "abc"] (str "file-1").
Proof.
  destruct (C9_age_validation reliable (str "John Doe")
              (str "john@company.com") (str "file-1")
              [str "30"; str "Engineering"] eq_refl eq_refl eq_refl)
    as (_ & Hage & _ & _ & _ & _ & Habc).
  split; [|exact Habc].
  destruct (Hage (str "30") eq_refl) as [_ Hparsed].
  exact (Hparsed eq_refl).
Defined.

Lemma LeadingInteger_not_blank age sign ds tail :
  LeadingInteger (trim age) sign ds tail -> blank age = false.
Proof.
  intros (Heq & _ & Hne & _).
  assert (Htrim : trim age <> []).
  { rewrite Heq. destruct sign, ds; simpl; congruence. }
  unfold blank. destruct age as [|c age]; [now exfalso; apply Htrim|].
  simpl. now destruct (trim (c :: age)).
Qed.

(** C10, as amended.  On a line whose name and email pass their checks,
    an age field whose trimmed value begins with an optional sign and at
    least one decimal digit, followed by characters the first of which
    is not a digit, and which does not begin with [0x] or [0X] after the
    sign, is read as its leading integer: the line is accepted with that
    age when it lies in [0, 150] and is [invalidAge] otherwise.  So
    ["25abc"] is stored as 25 and ["12.9"] as 12. *)
Theorem C10_trailing_characters_ignored (host : Host.t)
    (name email fileId : jsstring) (rest : list jsstring)
    (age sign ds tail : jsstring) :
  blank name = false -> blank email = false ->
  regex_test emailRegex (trim email) = true ->
  rest !! 0%nat = Some age ->
  LeadingInteger (trim age) sign ds tail ->
  ~ hexPrefixed ds tail ->
  ((0 <= prefixValue sign ds <= 150)%Z ->
     accepts host (name :: email :: rest) fileId (Some (prefixValue sign ds))) /\
  (~ (0 <= prefixValue sign ds <= 150)%Z ->
     rejects host (name :: email :: rest) fileId invalidAge) /\
  accepts host [name; email; str "25abc"] fileId (Some 25%Z) /\
  accepts host [name; email; str "12.9"] fileId (Some 12%Z).
Proof.
  intros Hname Hemail Hshape Hage Hlead Hhex.
  pose proof (LeadingInteger_not_blank _ _ _ _ Hlead) as Hblank.
  pose proof (parseInt_leading_integer _ _ _ _ Hlead Hhex) as Hparse.
  split; [|split; [|split]].
  - intros Hin. eapply accepts_in_range; eauto.
  - intros Hout. eapply rejects_out_of_range; eauto. lia.
  - now apply (accepts_in_range host name email fileId _ Hname Hemail Hshape
                 (str "25abc")).
  - now apply (accepts_in_range host name email fileId _ Hname Hemail Hshape
                 (str "12.9")).
Qed.

(** C10 at the age field [" +7 years"]. *)
Lemma C10_trailing_characters_ignored_witness :
  accepts reliable [str "A"; str "a@b.c"; str " +7 years"] (str "file-1")
    (Some 7%Z).
Proof.
  refine (proj1 (C10_trailing_characters_ignored reliable (str "A")
                   (str "a@b.c") (str "file-1") [str " +7 years"]
                   (str " +7 years") (str "+") (str "7") (str " years")
                   eq_refl eq_refl eq_refl eq_refl _ _) _).
  - repeat split; try reflexivity.
    + right; left; reflexivity.
    + discriminate.
    + exists 32, (str "years"). now split.
  - intros [_ [tail' [H|H]]]; discriminate H.
  - vm_compute. split; discriminate.
Defined.

(** C10 as stated fails on the [0x] prefix: ["0xFF"] begins with the
    digit [0], whose value lies in [0, 150], followed by non-digit
    characters, yet it is read in radix 16 as 255 and rejected. *)
Lemma C10_hex_counterexample :
  ~ (forall age sign ds tail,
       LeadingInteger (trim age) sign ds tail ->
       (0 <= prefixValue sign ds <= 150)%Z ->
       accepts reliable [str "A"; str "a@b.c"; age] (str "file-1")
         (Some (prefixValue sign ds))).
Proof.
  intros H.
  assert (Hlead : LeadingInteger (trim (str "0xFF")) [] [48] (str "xFF")).
  { repeat split; try reflexivity.
    - now left.
    - discriminate.
    - exists 120, (str "FF"). now split. }
  assert (Hrange : (0 <= prefixValue [] (str "0") <= 150)%Z).
  { vm_compute. split; discriminate. }
  destruct (H (str "0xFF") [] [48] (str "xFF") Hlead Hrange
              (initialLocals reliable 0%nat)) as (record & Hvalid & _).
  vm_compute in Hvalid. discriminate Hvalid.
Qed.

(** ** Lemmas on the dispatch loop *)

Section Dispatch.

Variable host : Host.t.
Implicit Types (w : World host) (job : Job.t) (i : nat).

Lemma processJob_catch_eq i err job w :
  processJob_catch host i err (job, w)
  = match Host.job_save host (failedJob job err) (wenv w) with
    | (Some err', e') => (inl err', (failedJob job err, set_wenv e' w))
    | (None, e') =>
        (inr tt,
         (failedJob job err,
          mkWorld host (<[i:=failedJob job err]> (jobs w)) (isProcessing w) e'))
    end.
Proof.
  unfold processJob_catch, bind, modifyJob, modify, save. simpl.
  fold (failedJob job err).
  now destruct (Host.job_save host (failedJob job err) (wenv w)) as [[e1|] e'].
Qed.

(** [processJob], call by call. *)
Lemma processJob_eq i job w :
  processJob host i (job, w)
  = let job1 := Job.set_status processing job in
    match Host.job_save host job1 (wenv w) with
    | (Some err, e1) => processJob_catch host i err (job1, set_wenv e1 w)
    | (None, e1) =>
        let w1 := mkWorld host (<[i:=job1]> (jobs w)) (isProcessing w) e1 in
        match Host.s3Client_send host (Job.fileName job) e1 with
        | (inl err, e2) => processJob_catch host i err (job1, set_wenv e2 w1)
        | (inr fileContent, e2) =>
            match processFileContent host fileContent (Job.fileId job) e2 with
            | (inl err, e3) =>
                processJob_catch host i err (job1, set_wenv e3 w1)
            | (inr result, e3) =>
                let job2 :=
                  Job.set_result (Some result)
                    (Job.set_status completed job1) in
                match Host.job_save host job2 e3 with
                | (Some err, e4) =>
                    processJob_catch host i err (job2, set_wenv e4 w1)
                | (None, e4) =>
                    (inr tt,
                     (job2,
                      mkWorld host (<[i:=job2]> (jobs w1)) (isProcessing w) e4))
                end
            end
        end
    end.
Proof.
  unfold processJob, try_catch, processJob_try, bind, modifyJob, modify,
    gets, save, downloadFromS3, runProcessFileContent.
  simpl.
  destruct (Host.job_save host _ (wenv w)) as [[err|] e1]; [reflexivity|].
  simpl.
  destruct (Host.s3Client_send host _ e1) as [[err|fileContent] e2];
    [reflexivity|].
  simpl.
  destruct (processFileContent host fileContent _ e2) as [[err|result] e3];
    [reflexivity|].
  simpl.
  now destruct (Host.job_save host _ e3) as [[err|] e4].
Qed.

Lemma processJob_catch_saved i err job w :
  handlerSaveSucceeds host ->
  exists e',
    processJob_catch host i err (job, w)
    = (inr tt,
       (failedJob job err,
        mkWorld host (<[i:=failedJob job err]> (jobs w)) (isProcessing w) e')).
Proof.
  intros Hsave. rewrite processJob_catch_eq.
  specialize (Hsave (failedJob job err) (wenv w) eq_refl).
  destruct (Host.job_save host (failedJob job err) (wenv w)) as [[err'|] e'];
    [discriminate Hsave|].
  now exists e'.
Qed.


Lemma pending_filter_insert (l : list Job.t) : forall i before after,
  l !! i = Some before ->
  Job.status before = pending -> Job.status after <> pending ->
  S (length (filter (fun job => Job.status job = pending) (<[i:=after]> l)))
  = length (filter (fun job => Job.status job = pending) l).
Proof.
  induction l as [|x l IH]; intros i before after Hi Hb Ha;
    [discriminate Hi|].
  destruct i as [|i]; simpl in *.
  - injection Hi as ->.
    now rewrite filter_cons_False, filter_cons_True.
  - rewrite !filter_cons. case_decide; simpl; erewrite <- IH; eauto.
Qed.


(** Whenever [processJob] returns normally, its last save was
    acknowledged: the document is stored, and no longer [pending]. *)
Lemma processJob_returns i job w job' w' :
  processJob host i (job, w) = (inr tt, (job', w')) ->
  jobs w' = <[i:=job']> (jobs w) /\ Job.status job' <> pending.
Proof.
  rewrite processJob_eq. cbv zeta.
  assert (Hcatch : forall err j (w0 : World host),
    jobs w0 = jobs w \/ jobs w0 = <[i:=Job.set_status processing job]> (jobs w) ->
    processJob_catch host i err (j, w0) = (inr tt, (job', w')) ->
    jobs w' = <[i:=job']> (jobs w) /\ Job.status job' <> pending).
  { intros err j w0 Hjobs. rewrite processJob_catch_eq.
    destruct (Host.job_save host (failedJob j err) (wenv w0)) as [[err'|] e'];
      [discriminate|].
    intros [= <- <-]. simpl. split; [|discriminate].
    destruct Hjobs as [-> | ->]; [reflexivity|apply list_insert_insert_eq]. }
  destruct (Host.job_save host _ (wenv w)) as [[err|] e1].
  { apply Hcatch. now left. }
  destruct (Host.s3Client_send host _ e1) as [[err|fileContent] e2].
  { apply Hcatch. now right. }
  destruct (processFileContent host fileContent _ e2) as [[err|result] e3].
  { apply Hcatch. now right. }
  destruct (Host.job_save host _ e3) as [[err|] e4].
  { apply Hcatch. now right. }
  intros [= <- <-]. simpl. split; [apply list_insert_insert_eq|discriminate].
Qed.

(** [pendingCount w + 1] turns are always enough: [processQueue]
    resolves or rejects. *)
Lemma processQueue_loop_total : forall fuel w,
  (pendingCount host w < fuel)%nat ->
  exists d w', processQueue_loop host fuel w = Some (d, w').
Proof.
  induction fuel as [|fuel IH]; intros w Hfuel; [lia|].
  simpl. destruct (findOnePending host w) as [[i job]|] eqn:Hfind;
    [|now eauto].
  apply list_find_Some in Hfind as (Hi & Hpending & _).
  destruct (processJob host i (job, w)) as [[err|[]] [job' w1]] eqn:Hrun;
    [now eauto|].
  apply processJob_returns in Hrun as [Hjobs Hnot].
  apply IH. unfold pendingCount in *. rewrite Hjobs.
  pose proof (pending_filter_insert (jobs w) i job job' Hi Hpending Hnot).
  lia.
Qed.

Lemma processQueue_total w : exists d w', processQueue host w = Some (d, w').
Proof.
  unfold processQueue. destruct (isProcessing w); [now eauto|].
  apply processQueue_loop_total. unfold pendingCount. simpl. lia.
Qed.

(** X19. When neither the save of the [completed] document nor the save of
    the [catch] block rejects, a job that starts with no result and no
    error ends with exactly one of them: the result when [completed],
    the error when [failed]. *)
Lemma processJob_exactly_one i job w :
  (forall j e, Job.status j = completed -> (Host.job_save host j e).1 = None) ->
  handlerSaveSucceeds host ->
  Job.result job = None -> Job.error job = None ->
  exists job' w',
    processJob host i (job, w) = (inr tt, (job', w')) /\
    ((Job.status job' = completed /\
      Job.result job' <> None /\ Job.error job' = None) \/
     (Job.status job' = failed /\
      Job.result job' = None /\ Job.error job' <> None)).
Proof.
  intros Hdone Hsave Hresult Herror. rewrite processJob_eq. cbv zeta.
  assert (Hcatch : forall err (w0 : World host),
    exists job' w',
      processJob_catch host i err (Job.set_status processing job, w0)
        = (inr tt, (job', w')) /\
      ((Job.status job' = completed /\
        Job.result job' <> None /\ Job.error job' = None) \/
       (Job.status job' = failed /\
        Job.result job' = None /\ Job.error job' <> None))).
  { intros err w0.
    destruct (processJob_catch_saved i err (Job.set_status processing job)
                w0 Hsave) as [e' ->].
    do 2 eexists. split; [reflexivity|]. right. simpl.
    repeat split; [assumption|discriminate]. }
  destruct (Host.job_save host _ (wenv w)) as [[err|] e1]; [apply Hcatch|].
  destruct (Host.s3Client_send host _ e1) as [[err|fileContent] e2];
    [apply Hcatch|].
  destruct (processFileContent host fileContent _ e2) as [[err|result] e3];
    [apply Hcatch|].
  specialize (Hdone (Job.set_result (Some result)
                       (Job.set_status completed
                          (Job.set_status processing job))) e3 eq_refl).
  destruct (Host.job_save host _ e3) as [[err|] e4]; [discriminate Hdone|].
  do 2 eexists. split; [reflexivity|]. left. simpl.
  repeat split; [discriminate|assumption].
Qed.

End Dispatch.

(** ** Claims on the dispatch loop *)



(** What the drain of the witness leaves. *)
Example drain_with_missing_objects :
  processQueue reliable
    (mkWorld reliable [pendingJob "job-1" "a.csv"; pendingJob "job-2" "b.csv"]
       false 0%nat)
  = Some (Resolved,
          mkWorld reliable
            [failedJob (Job.set_status processing (pendingJob "job-1" "a.csv"))
               (mkError (str "NoSuchKey"));
             failedJob (Job.set_status processing (pendingJob "job-2" "b.csv"))
               (mkError (str "NoSuchKey"))]
            false 0%nat).
Proof. reflexivity. Qed.

(** C4 does not hold of the code: the save made by the [catch] block of
    [processJob] is not guarded.  With two pending jobs whose objects
    are missing from the store, on a Job collection where the save of a
    [failed] document rejects, the lookup failure of the first job is
    caught, the save of the [catch] block rejects, [processJob] rejects
    and [processQueue] with it: the drain is aborted with the first job
    stored as [processing] and without an error message, the second job
    never claimed and still [pending], and [isProcessing] still set. *)
Theorem C4_failed_save_aborts_drain :
  (Host.s3Client_send handlerSaveDown (str "a.csv") 0%nat).1
  = inl (mkError (str "NoSuchKey")) /\
  processQueue handlerSaveDown
    (mkWorld handlerSaveDown
       [pendingJob "job-1" "a.csv"; pendingJob "job-2" "b.csv"] false 0%nat)
  = Some (Rejected (mkError (str "save failed")),
          mkWorld handlerSaveDown
            [Job.mk (str "job-1") (str "file-1") (str "a.csv") processing
               None None;
             Job.mk (str "job-2") (str "file-1") (str "b.csv") pending
               None None]
            true 0%nat).
Proof. split; reflexivity. Qed.

(** C5 does not hold of the code: when the save of the [completed] document
    rejects, the [catch] block marks the same document [failed] and
    saves it with the result still set, so the stored job is [failed]
    with both [result] and [error] populated. *)
Theorem C5_failed_job_keeps_result :
  processQueue completedSaveDown
    (mkWorld completedSaveDown [pendingJob "job-1" "a.csv"] false 0%nat)
  = Some (Resolved,
          mkWorld completedSaveDown
            [Job.mk (str "job-1") (str "file-1") (str "a.csv") failed
               (Some oneInserted) (Some (str "save failed"))]
            false 1%nat).
Proof. reflexivity. Qed.

(** ** Claims on failures of the bulk insert *)

Section InsertFailures.

Variable host : Host.t.
Variable fileId : jsstring.

Local Opaque BATCH_SIZE.



End InsertFailures.




(** What that run returns: the hundredth line counted as failed under
    [other], and the 100 records inserted by the final flush, so that
    [successfulInserts + failedLines] exceeds [totalLines]. *)
Example midstream_rejection_result :
  processFileContent firstInsertDown (header :: repeat goodLine 100)
    (str "file-1") 0%nat
  = (inr (Result.mk 100 100 1 (mkCategories 0 0 0 0 1)
            [ErrorSample.mk 101 (str "write failed") goodLine]), 2%nat).
Proof. reflexivity. Qed.

(** C3 does not hold of the code: the [catch] block looks at the counters of
    the whole run, not at the failure at hand.  After a line with a bad
    email, a line that fails on a rejected [insertMany] is counted in
    [failedLines] but in no category, [other] included; the run returns
    two failed lines for one counted category. *)
Theorem C3_failure_in_no_category :
  exists before after : Locals firstInsertDown,
    forEach (processLine firstInsertDown (str "file-1"))
      (header :: badEmailLine :: repeat goodLine 99)
      (initialLocals firstInsertDown 0%nat) = (inr tt, before) /\
    processLine firstInsertDown (str "file-1") goodLine before
      = (inr tt, after) /\
    failedLines after = (failedLines before + 1)%nat /\
    errorCategories after = errorCategories before /\
    errorCategories before = mkCategories 0 1 0 0 0 /\
    processFileContent firstInsertDown
      (header :: badEmailLine :: repeat goodLine 100) (str "file-1") 0%nat
    = (inr (Result.mk 101 100 2 (mkCategories 0 1 0 0 0)
              [ErrorSample.mk 2 (str "Invalid email format: david@")
                 badEmailLine;
               ErrorSample.mk 102 (str "write failed") goodLine]), 2%nat).
Proof.
  do 2 eexists. split; [vm_compute; reflexivity|].
  split; [vm_compute; reflexivity|].
  repeat split.
Qed.

(** ** Further properties of the line parser *)

Lemma joinWith_cons sep f rest :
  rest <> [] -> joinWith sep (f :: rest) = f ++ sep :: joinWith sep rest.
Proof. now destruct rest. Qed.

Lemma count_quotes_none f : dquote ∉ f -> count_quotes f = 0%nat.
Proof.
  induction f as [|c f IH]; intros Hq; [reflexivity|].
  rewrite count_quotes_cons.
  destruct (N.eqb_spec c dquote) as [->|_].
  - exfalso. apply Hq. now left.
  - apply IH. intros H. apply Hq. now right.
Qed.

Lemma count_quotes_app a b :
  count_quotes (a ++ b) = (count_quotes a + count_quotes b)%nat.
Proof.
  induction a as [|c a IH]; [reflexivity|].
  simpl app. rewrite !count_quotes_cons, IH. lia.
Qed.

Lemma strip_quotes_app a b :
  strip_quotes (a ++ b) = strip_quotes a ++ strip_quotes b.
Proof.
  induction a as [|c a IH]; [reflexivity|].
  simpl app. rewrite !strip_quotes_cons, IH. now destruct (c =? dquote).
Qed.

Lemma quoted_no_split f : dquote ∉ f -> forall i, ~ split_point (quoted f) i.
Proof.
  intros Hq i [Hi Hout]. unfold quoted, outside_quotes in *.
  destruct i as [|i]; [discriminate Hi|].
  change ((dquote :: f ++ [dquote]) !! S i) with ((f ++ [dquote]) !! i) in Hi.
  change (take (S i) (dquote :: f ++ [dquote]))
    with (dquote :: take i (f ++ [dquote])) in Hout.
  rewrite count_quotes_cons in Hout.
  change (dquote =? dquote) with true in Hout. cbv iota in Hout.
  destruct (decide (i < length f)%nat) as [Hlt|Hge].
  - rewrite take_app_le in Hout by lia.
    rewrite count_quotes_none in Hout; [discriminate Hout|].
    intros Hin. apply Hq.
    apply elem_of_take in Hin as (k & Hk & _).
    eapply list_elem_of_lookup_2; eauto.
  - rewrite lookup_app_r in Hi by lia.
    destruct (i - length f)%nat; discriminate Hi.
Qed.

Lemma quoted_strip f : dquote ∉ f -> strip_quotes (quoted f) = f.
Proof.
  intros Hq. unfold quoted. rewrite strip_quotes_cons. simpl.
  rewrite strip_quotes_app, strip_quotes_none by assumption.
  rewrite strip_quotes_cons. simpl. apply app_nil_r.
Qed.

Lemma quoted_count f : dquote ∉ f -> count_quotes (quoted f) = 2%nat.
Proof.
  intros Hq. unfold quoted. rewrite count_quotes_cons, count_quotes_app.
  rewrite count_quotes_none by assumption. reflexivity.
Qed.

(** What a written field reads as. *)
Lemma writesField_reads f e :
  writesField f e ->
  (forall i, ~ split_point e i) /\
  Nat.even (count_quotes e) = true /\ strip_quotes e = f.
Proof.
  intros [Hq [-> | [-> Hc]]].
  - split; [now apply quoted_no_split|].
    split; [now rewrite quoted_count|now apply quoted_strip].
  - split; [now apply no_comma_no_split|].
    split; [now rewrite count_quotes_none|now apply strip_quotes_none].
Qed.

Lemma parseCSVLine_joined (fields encoded : list jsstring) :
  fields <> [] ->
  Forall2 writesField fields encoded ->
  parseCSVLine (joinWith comma encoded) = fields.
Proof.
  intros Hne Hall. induction Hall as [|f e fields encoded Hfe Hall IH];
    [congruence|].
  destruct (writesField_reads f e Hfe) as (Hno & Heven & Hstrip).
  destruct Hall as [|f' e' fields' encoded' Hfe' Hall'].
  - simpl. rewrite parseCSVLine_no_split by assumption. now rewrite Hstrip.
  - rewrite joinWith_cons by discriminate.
    rewrite parseCSVLine_split by assumption.
    rewrite Hstrip. f_equal. apply IH. discriminate.
Qed.

(** X1. Reading back a written line: when every field is free of quote
    characters and is written either between quotes or, if it holds no
    comma, as it is, [parseCSVLine] of the fields joined by commas is
    the list of fields. *)
Theorem parseCSVLine_reads_written (fields encoded : list jsstring) :
  fields <> [] ->
  Forall2 writesField fields encoded ->
  parseCSVLine (joinWith comma encoded) = fields.
Proof. apply parseCSVLine_joined. Qed.

(** X1 at a name written between quotes and an email written as it
    is. *)
Lemma parseCSVLine_reads_written_witness :
  parseCSVLine
    (joinWith comma [quoted (str "Martinez, Carlos"); str "carlos@company.com"])
  = [str "Martinez, Carlos"; str "carlos@company.com"].
Proof.
  apply parseCSVLine_reads_written; [discriminate|].
  apply Forall2_cons; [|apply Forall2_cons; [|apply Forall2_nil]].
  - split; [|now left].
    refine (bool_decide_unpack _ _). vm_compute. exact I.
  - split; [|right; split; [reflexivity|]];
      refine (bool_decide_unpack _ _); vm_compute; exact I.
Defined.

Lemma parseCSVLine_loop_join line : forall cur,
  dquote ∉ line ->
  joinWith comma (parseCSVLine_loop line [] cur false) = cur ++ line.
Proof.
  induction line as [|c line IH]; intros cur Hq; simpl.
  - now rewrite app_nil_r.
  - assert (Hc : c <> dquote) by (intros ->; apply Hq; now left).
    assert (Hline : dquote ∉ line) by (intros H; apply Hq; now right).
    destruct (N.eqb_spec c dquote) as [?|_]; [congruence|].
    destruct (N.eqb_spec c comma) as [->|_]; simpl.
    + rewrite parseCSVLine_loop_acc. cbn [app].
      rewrite joinWith_cons.
      * now rewrite IH.
      * pose proof (parseCSVLine_loop_length line [] [] false) as Hlen.
        intros Hnil. rewrite Hnil in Hlen. simpl in Hlen. lia.
    + rewrite IH by assumption. now rewrite <- app_assoc.
Qed.

(** X2. Writing back a parsed line: for a line without quote
    characters, the fields of [parseCSVLine] joined by commas are the
    line itself, so nothing of such a line is lost in the fields. *)
Theorem parseCSVLine_join (line : jsstring) :
  dquote ∉ line -> joinWith comma (parseCSVLine line) = line.
Proof. intros Hq. now apply (parseCSVLine_loop_join line []). Qed.

(** X2 at [goodLine]. *)
Lemma parseCSVLine_join_witness :
  joinWith comma (parseCSVLine goodLine) = goodLine.
Proof.
  apply parseCSVLine_join.
  refine (bool_decide_unpack _ _). vm_compute. exact I.
Defined.

Lemma parseCSVLine_loop_no_quote line : forall fields cur q,
  Forall (fun f => dquote ∉ f) fields -> dquote ∉ cur ->
  Forall (fun f => dquote ∉ f) (parseCSVLine_loop line fields cur q).
Proof.
  induction line as [|c line IH]; intros fields cur q Hfields Hcur; simpl.
  - apply Forall_app. split; [assumption|]. now constructor.
  - destruct (N.eqb_spec c dquote) as [->|Hc]; [now apply IH|].
    destruct ((c =? comma) && negb q).
    + apply IH.
      * apply Forall_app. split; [assumption|]. now constructor.
      * intros H. now apply elem_of_nil in H.
    + apply IH; [assumption|].
      intros [H|H%list_elem_of_singleton]%elem_of_app; [now apply Hcur|].
      congruence.
Qed.

(** X3. No field returned by [parseCSVLine] holds a quote character,
    whatever the line. *)
Theorem parseCSVLine_fields_without_quotes (line : jsstring) :
  Forall (fun f => dquote ∉ f) (parseCSVLine line).
Proof.
  apply parseCSVLine_loop_no_quote; [constructor|].
  intros H. now apply elem_of_nil in H.
Qed.

Lemma filter_seq_length (P Q : nat -> Prop)
    `{!forall i, Decision (P i)} `{!forall i, Decision (Q i)} n :
  forall a b,
    (forall k, (k < n)%nat -> P (a + k)%nat <-> Q (b + k)%nat) ->
    length (filter P (seq a n)) = length (filter Q (seq b n)).
Proof.
  induction n as [|n IH]; intros a b Hpq; [reflexivity|].
  simpl seq. rewrite !filter_cons.
  assert (Hrest : length (filter P (seq (S a) n))
                  = length (filter Q (seq (S b) n))).
  { apply IH. intros k Hk. specialize (Hpq (S k) ltac:(lia)).
    now rewrite !Nat.add_succ_r in Hpq. }
  specialize (Hpq 0%nat ltac:(lia)). rewrite !Nat.add_0_r in Hpq.
  destruct (decide (P a)) as [Hp|Hp], (decide (Q b)) as [Hq|Hq];
    simpl; try (now rewrite Hrest); tauto.
Qed.

Lemma parseCSVLine_loop_count line : forall fields cur q,
  length (parseCSVLine_loop line fields cur q)
  = (length fields + 1
     + length (filter
                 (fun i => line !! i = Some comma /\
                           quoting_after q (take i line) = false)
                 (seq 0 (length line))))%nat.
Proof.
  induction line as [|c line IH]; intros fields cur q.
  - simpl. rewrite length_app. simpl. lia.
  - assert (Hrest :
      length (filter
                (fun i => (c :: line) !! i = Some comma /\
                          quoting_after q (take i (c :: line)) = false)
                (seq 1 (length line)))
      = length (filter
                  (fun i => line !! i = Some comma /\
                            quoting_after (if c =? dquote then negb q else q)
                              (take i line) = false)
                  (seq 0 (length line)))).
    { apply filter_seq_length. intros k _. simpl.
      now rewrite quoting_after_cons. }
    cbn [length seq]. rewrite filter_cons.
    cbn [parseCSVLine_loop].
    destruct (c =? dquote) eqn:Hcq.
    + apply N.eqb_eq in Hcq. subst c.
      rewrite IH. rewrite decide_False by (intros [H _]; discriminate H).
      now rewrite Hrest.
    + apply N.eqb_neq in Hcq.
      destruct (c =? comma) eqn:Hcc; cbn [andb].
      * apply N.eqb_eq in Hcc. subst c.
        destruct q; cbn [negb].
        -- rewrite IH. rewrite decide_False by (intros [_ H]; discriminate H).
           now rewrite Hrest.
        -- rewrite IH. rewrite decide_True by (now split).
           rewrite length_app. cbn [length]. rewrite Hrest. lia.
      * apply N.eqb_neq in Hcc.
        rewrite IH. rewrite decide_False; [now rewrite Hrest|].
        intros [H _]. simpl in H. congruence.
Qed.

(** X4. [parseCSVLine] returns one field more than the line has commas
    outside quotes. *)
Theorem parseCSVLine_field_count (line : jsstring) :
  length (parseCSVLine line) = S (length (split_points line)).
Proof.
  unfold parseCSVLine. rewrite parseCSVLine_loop_count. simpl.
  unfold split_points. f_equal.
  apply filter_seq_length. intros k _. simpl.
  unfold split_point. now rewrite outside_quotes_quoting.
Qed.

(** ** Further properties of the pipeline *)

Section Accounting.

Variable host : Host.t.
Variable fileId : jsstring.
Implicit Types (s : Locals host) (line : jsstring).

Lemma counted_spec line :
  counted line = true <-> trim line <> [] /\ trim line <> str ",,,".
Proof.
  unfold counted, jsstring_eqb. rewrite negb_true_iff, orb_false_iff.
  rewrite bool_decide_eq_false. split.
  - intros [Hne Hnc]. split; [|assumption]. intros H. now rewrite H in Hne.
  - intros [Hne Hnc]. split; [|assumption]. now destruct (trim line).
Qed.

Lemma counted_false line :
  counted line = false -> trim line = [] \/ trim line = str ",,,".
Proof.
  unfold counted, jsstring_eqb. rewrite negb_false_iff, orb_true_iff.
  intros [H|H]; [left; now destruct (trim line)|right].
  now apply bool_decide_eq_true in H.
Qed.

Lemma TryOutcome_failedLines fields s r s' :
  TryOutcome fields fileId s r s' -> failedLines s' = failedLines s.
Proof. now destruct 1. Qed.

Lemma catchBlock_fields t err s s' :
  catchBlock host t err s = (inr tt, s') ->
  totalLines s' = totalLines s /\
  failedLines s' = (failedLines s + 1)%nat /\
  successfulInserts s' = successfulInserts s /\
  batch s' = batch s /\ env s' = env s /\
  errors s'
  = (if (length (errors s) <? 50)%nat
     then errors s ++
          [ErrorSample.mk (totalLines s + 1) (message err) (substring0 100 t)]
     else errors s) /\
  errorCategories s'
  = (if namedCategoriesAllZero (errorCategories s)
     then increment other (errorCategories s)
     else errorCategories s).
Proof.
  rewrite catchBlock_eq. intros [= <-]. simpl.
  destruct (namedCategoriesAllZero (errorCategories s)); simpl;
    destruct (length (errors s) <? 50)%nat; simpl; repeat split.
Qed.

(** What a turn past the header does to [totalLines]. *)
Lemma processLine_totalLines line s s' :
  isFirstLine s = false ->
  processLine host fileId line s = (inr tt, s') ->
  totalLines s' = (totalLines s + if counted line then 1 else 0)%nat.
Proof.
  intros Hflag Hline.
  destruct (processLine_cases host fileId line s) as (s1 & H1 & Hcases).
  rewrite H1 in Hline. injection Hline as <-.
  destruct Hcases
    as [[H _]|[(_ & Hskip & ->)|(_ & Hne & Hnc & r & s2 & _ & Hout & Hr)]].
  - congruence.
  - replace (counted line) with false; [lia|].
    symmetry. apply not_true_is_false. rewrite counted_spec. tauto.
  - replace (counted line) with true
      by (symmetry; apply counted_spec; tauto).
    apply TryOutcome_errors in Hout as [_ Htotal]. simpl in Htotal.
    destruct r as [err|[]]; [|now subst s2].
    apply catchBlock_fields in Hr as (-> & _). exact Htotal.
Qed.

Lemma forEach_totalLines lines : forall s s',
  isFirstLine s = false ->
  forEach (processLine host fileId) lines s = (inr tt, s') ->
  totalLines s'
  = (totalLines s + length (filter (fun l => counted l = true) lines))%nat.
Proof.
  induction lines as [|line lines IH]; intros s s' Hflag Hrun.
  - injection Hrun as <-. simpl. lia.
  - simpl in Hrun. unfold bind in Hrun.
    destruct (processLine_total host fileId line s) as [s1 H1].
    rewrite H1 in Hrun.
    pose proof (processLine_totalLines line s s1 Hflag H1) as Hstep.
    apply processLine_isFirstLine in H1.
    rewrite (IH s1 s' H1 Hrun), Hstep, filter_cons.
    destruct (counted line); simpl; lia.
Qed.

(** The result object, read off the state when the stream is
    exhausted. *)
Lemma processFileContent_result fileStream e result e' :
  processFileContent host fileStream fileId e = (inr result, e') ->
  exists s,
    forEach (processLine host fileId) fileStream (initialLocals host e)
      = (inr tt, s) /\
    Result.totalLines result = totalLines s /\
    Result.failedLines result = failedLines s /\
    Result.successfulInserts result
    = (successfulInserts s + length (batch s))%nat /\
    Result.errorCategories result = errorCategories s /\
    Result.errors result = take 10 (errors s).
Proof.
  unfold processFileContent, processFileContent_body. intros Hrun.
  destruct (forEach_total host fileId fileStream (initialLocals host e))
    as [s Hs].
  unfold bind at 1 in Hrun. rewrite Hs in Hrun.
  exists s. split; [assumption|].
  unfold finalFlush, bind, gets, modify, ret, insertMany in Hrun.
  destruct (batch s) as [|r b] eqn:Hb; simpl in Hrun.
  - injection Hrun as <- _. simpl. rewrite ?Hb. simpl.
    repeat split. lia.
  - destruct (Host.Record_insertMany host (r :: b) (env s)) as [[err|] e1];
      simpl in Hrun; [discriminate Hrun|].
    injection Hrun as <- _. simpl. rewrite ?Hb. now repeat split.
Qed.

End Accounting.

(** X5. In a returned result [totalLines] is the number of lines after
    the first whose trimmed form is neither empty nor [,,,], whatever
    the lines hold and whatever the inserts did. *)
Theorem totalLines_counts_data_lines (host : Host.t)
    (fileStream : list jsstring) (fileId : jsstring) (e : Host.E host)
    (result : Result.t) (e' : Host.E host) :
  processFileContent host fileStream fileId e = (inr result, e') ->
  Result.totalLines result = length (dataLines fileStream).
Proof.
  intros Hrun.
  apply processFileContent_result in Hrun as (s & Hs & -> & _).
  unfold dataLines. destruct fileStream as [|h rest].
  - now injection Hs as <-.
  - simpl in Hs. unfold bind in Hs.
    rewrite processLine_header in Hs by reflexivity.
    now rewrite (forEach_totalLines host fileId rest
                   (set_isFirstLine false (initialLocals host e)) s
                   eq_refl Hs).
Qed.

(** X5 at a stream with a blank line and a [,,,] line among three data
    lines. *)
Lemma totalLines_counts_data_lines_witness :
  Result.totalLines oneBadEmail
  = length (dataLines [header; goodLine; str "  "; str ",,,"; badEmailLine]).
Proof.
  apply (totalLines_counts_data_lines reliable
           [header; goodLine; str "  "; str ",,,"; badEmailLine]
           (str "file-1") 0%nat oneBadEmail 1%nat).
  reflexivity.
Defined.

Section Failures.

Variable host : Host.t.
Variable fileId : jsstring.
Implicit Types (s : Locals host) (line : jsstring).

Lemma increment_named c cats :
  c <> other ->
  namedTotal (increment c cats) = S (namedTotal cats) /\
  count other (increment c cats) = count other cats.
Proof.
  intros Hc. destruct cats as [mf ie ia ml ot].
  destruct c; try congruence; unfold namedTotal; simpl; split; lia.
Qed.

Lemma processLine_errors_length line s s' :
  length (errors s) = Nat.min 50 (failedLines s) ->
  processLine host fileId line s = (inr tt, s') ->
  length (errors s') = Nat.min 50 (failedLines s').
Proof.
  intros Hinv Hline.
  destruct (processLine_cases host fileId line s) as (s1 & H1 & Hcases).
  rewrite H1 in Hline. injection Hline as <-.
  destruct Hcases
    as [[_ ->]|[(_ & _ & ->)|(_ & _ & _ & r & s2 & _ & Hout & Hr)]];
    [assumption|assumption|].
  pose proof (TryOutcome_errors _ _ _ _ _ _ Hout) as [Herrs _].
  pose proof (TryOutcome_failedLines _ _ _ _ _ _ Hout) as Hfailed.
  simpl in Herrs, Hfailed.
  destruct r as [err|[]]; [|subst s2; congruence].
  apply catchBlock_fields in Hr as (_ & -> & _ & _ & _ & -> & _).
  rewrite Herrs, Hfailed.
  destruct (Nat.ltb_spec (length (errors s)) 50).
  - rewrite length_app. cbn [length]. lia.
  - lia.
Qed.

(** A property of the state kept by every turn whose [insertMany] does
    not reject holds at the end of a run none of whose mid-stream
    flushes rejects. *)
Lemma run_invariant (P : Locals host -> Prop) e fileStream :
  P (initialLocals host e) ->
  (forall line s s',
      P s ->
      (isFirstLine s = false -> trim line <> [] -> trim line <> str ",,," ->
       forall record err e1,
         validate host (parseCSVLine (trim line)) fileId
           (set_totalLines (totalLines s + 1) s)
         = (inr record, set_totalLines (totalLines s + 1) s) ->
         (BATCH_SIZE <= length (batch s ++ [record]))%nat ->
         Host.Record_insertMany host (batch s ++ [record]) (env s)
         <> (Some err, e1)) ->
      processLine host fileId line s = (inr tt, s') -> P s') ->
  (forall err, ~ MidStreamRejection host fileStream fileId e err) ->
  forall s,
    forEach (processLine host fileId) fileStream (initialLocals host e)
      = (inr tt, s) ->
    P s.
Proof.
  intros Hinit Hstep.
  induction fileStream as [|line done IH] using rev_ind; intros Hno s Hrun.
  - now injection Hrun as <-.
  - rewrite forEach_app in Hrun.
    destruct (forEach_total host fileId done (initialLocals host e))
      as [s0 H0].
    rewrite H0 in Hrun. simpl in Hrun. unfold bind, ret in Hrun.
    destruct (processLine_total host fileId line s0) as [s1 H1].
    rewrite H1 in Hrun. injection Hrun as <-.
    apply (Hstep line s0 s1); [| |assumption].
    + apply IH; [|assumption].
      intros err Hrej. apply (Hno err). now apply MidStreamRejection_later.
    + intros Hflag Hne Hnc record err e1 Hvalid Hfull Hins.
      apply (Hno err). exists done, line, [], s0, record, e1.
      now repeat split.
Qed.

Lemma processLine_categories line s s' :
  count other (errorCategories s) = 0%nat /\
  namedTotal (errorCategories s) = failedLines s ->
  (isFirstLine s = false -> trim line <> [] -> trim line <> str ",,," ->
   forall record err e1,
     validate host (parseCSVLine (trim line)) fileId
       (set_totalLines (totalLines s + 1) s)
     = (inr record, set_totalLines (totalLines s + 1) s) ->
     (BATCH_SIZE <= length (batch s ++ [record]))%nat ->
     Host.Record_insertMany host (batch s ++ [record]) (env s)
     <> (Some err, e1)) ->
  processLine host fileId line s = (inr tt, s') ->
  count other (errorCategories s') = 0%nat /\
  namedTotal (errorCategories s') = failedLines s'.
Proof.
  intros Hinv Hok Hline.
  destruct (processLine_cases host fileId line s) as (s1 & H1 & Hcases).
  rewrite H1 in Hline. injection Hline as <-.
  destruct Hcases
    as [[_ ->]|[(_ & _ & ->)|(Hflag & Hne & Hnc & r & s2 & _ & Hout & Hr)]];
    [assumption|assumption|].
  destruct Hout as [c msg Hc Hvalid|record Hvalid Hroom
                    |record e Hvalid Hfull Hins|record err e Hvalid Hfull Hins].
  - apply catchBlock_fields in Hr as (_ & -> & _ & _ & _ & _ & ->).
    cbn [errorCategories failedLines set_errorCategories set_totalLines].
    rewrite named_category_counted by assumption.
    destruct (increment_named c (errorCategories s) Hc) as [-> ->]. lia.
  - now subst s1.
  - now subst s1.
  - now destruct (Hok Hflag Hne Hnc record err e Hvalid Hfull).
Qed.

End Failures.

(** X6. The [errors] list of a returned result has exactly
    [min(10, failedLines)] entries: every failed line leaves a sample
    until the list is full. *)
Theorem errors_length (host : Host.t) (fileStream : list jsstring)
    (fileId : jsstring) (e : Host.E host) (result : Result.t)
    (e' : Host.E host) :
  processFileContent host fileStream fileId e = (inr result, e') ->
  length (Result.errors result) = Nat.min 10 (Result.failedLines result).
Proof.
  intros Hrun.
  apply processFileContent_result in Hrun
    as (s & Hs & _ & -> & _ & _ & ->).
  destruct (forEach_invariant host
              (fun s => length (errors s) = Nat.min 50 (failedLines s))
              fileId (processLine_errors_length host fileId)
              fileStream (initialLocals host e) eq_refl)
    as (s1 & H1 & Hinv).
  rewrite Hs in H1. injection H1 as <-.
  rewrite length_take, Hinv. lia.
Qed.

(** X6 at the run that returns [oneBadEmail]. *)
Lemma errors_length_witness :
  length (Result.errors oneBadEmail)
  = Nat.min 10 (Result.failedLines oneBadEmail).
Proof.
  apply (errors_length reliable [header; goodLine; badEmailLine]
           (str "file-1") 0%nat oneBadEmail 1%nat).
  reflexivity.
Defined.

(** X7. In a run none of whose mid-stream [insertMany] calls rejects,
    every failed line is counted in exactly one of the four named
    categories: their sum is [failedLines], and [other] stays 0. *)
Theorem categories_account_for_failures (host : Host.t)
    (fileStream : list jsstring) (fileId : jsstring) (e : Host.E host)
    (result : Result.t) (e' : Host.E host) :
  (forall err, ~ MidStreamRejection host fileStream fileId e err) ->
  processFileContent host fileStream fileId e = (inr result, e') ->
  namedTotal (Result.errorCategories result) = Result.failedLines result /\
  count other (Result.errorCategories result) = 0%nat.
Proof.
  intros Hno Hrun.
  apply processFileContent_result in Hrun
    as (s & Hs & _ & -> & _ & -> & _).
  destruct (run_invariant host fileId
              (fun s => count other (errorCategories s) = 0%nat /\
                        namedTotal (errorCategories s) = failedLines s)
              e fileStream (conj eq_refl eq_refl)
              (processLine_categories host fileId) Hno s Hs) as [Hother Hsum].
  now split.
Qed.

(** X7 at the run that returns [oneBadEmail]. *)
Lemma categories_account_for_failures_witness :
  namedTotal (Result.errorCategories oneBadEmail)
  = Result.failedLines oneBadEmail /\
  count other (Result.errorCategories oneBadEmail) = 0%nat.
Proof.
  apply (categories_account_for_failures reliable
           [header; goodLine; badEmailLine] (str "file-1") 0%nat
           oneBadEmail 1%nat).
  - intros err (pre & line & post & s & record & e1 & H).
    destruct H as (_ & _ & _ & _ & _ & _ & _ & H). discriminate H.
  - reflexivity.
Defined.

(** X8. A counted line that fails one of the checks never reaches the
    batch or the Record collection: the turn adds one to [totalLines],
    to [failedLines] and to the sum of the four named counters, and
    leaves [successfulInserts], the batch, [other] and the outside
    world as they were. *)
Theorem failed_check_effect (host : Host.t) (fileId line : jsstring)
    (s : Locals host) (err : Error) (s1 : Locals host) :
  isFirstLine s = false -> counted line = true ->
  validate host (parseCSVLine (trim line)) fileId
    (set_totalLines (totalLines s + 1) s) = (inl err, s1) ->
  exists s',
    processLine host fileId line s = (inr tt, s') /\
    totalLines s' = (totalLines s + 1)%nat /\
    failedLines s' = (failedLines s + 1)%nat /\
    namedTotal (errorCategories s')
    = (namedTotal (errorCategories s) + 1)%nat /\
    count other (errorCategories s') = count other (errorCategories s) /\
    successfulInserts s' = successfulInserts s /\
    batch s' = batch s /\ env s' = env s.
Proof.
  intros Hflag Hcounted Hvalid.
  apply counted_spec in Hcounted as [Hne Hnc].
  rewrite processLine_counted by assumption.
  unfold try_catch, tryBlock, bind. rewrite Hvalid.
  destruct (validate_cases host (parseCSVLine (trim line)) fileId
              (set_totalLines (totalLines s + 1) s))
    as [[record Hok]|(c & msg & Hc & Hfail)]; [congruence|].
  rewrite Hfail in Hvalid. injection Hvalid as <- <-. cbv beta iota.
  match goal with
  | |- context [catchBlock ?h ?t ?e ?st] =>
      destruct (catchBlock h t e st) as [r s'] eqn:Hcatch
  end.
  pose proof Hcatch as Heq. rewrite catchBlock_eq in Heq.
  injection Heq as <- _.
  apply catchBlock_fields in Hcatch as (Ht & Hf & Hs & Hb & He & _ & Hcats).
  exists s'. split; [reflexivity|].
  rewrite Ht, Hf, Hs, Hb, He, Hcats.
  cbn [errorCategories failedLines totalLines successfulInserts batch env
       set_errorCategories set_totalLines].
  rewrite named_category_counted by assumption.
  destruct (increment_named c (errorCategories s) Hc) as [Hsum Hother].
  rewrite Hsum, Hother. repeat split; lia.
Qed.

(** X8 at [badEmailLine], read after the header. *)
Lemma failed_check_effect_witness :
  exists s',
    processLine reliable (str "file-1") badEmailLine
      (set_isFirstLine false (initialLocals reliable 0%nat)) = (inr tt, s') /\
    totalLines s' = 1%nat /\ failedLines s' = 1%nat /\
    namedTotal (errorCategories s') = 1%nat /\
    count other (errorCategories s') = 0%nat /\
    successfulInserts s' = 0%nat /\ batch s' = [] /\ env s' = 0%nat.
Proof.
  refine (failed_check_effect reliable (str "file-1") badEmailLine
            (set_isFirstLine false (initialLocals reliable 0%nat))
            (mkError (str "Invalid email format: david@")) _ _ _ _).
  - reflexivity.
  - reflexivity.
  - vm_compute. reflexivity.
Defined.

(** ** The email check *)

Lemma emailShaped_test s : regex_test emailRegex s = true <-> emailShaped s.
Proof. apply emailRegex_shape. Qed.

(** X9. On fields whose name and email are not blank, the checks throw
    under [invalidEmail] exactly when the trimmed email is not of the
    shape [a@b.c], with [a], [b] and [c] non-empty and free of white
    space and of [@]. *)
Theorem invalidEmail_iff_not_shaped (host : Host.t)
    (name email fileId : jsstring) (rest : list jsstring)
    (s : Locals host) :
  blank name = false -> blank email = false ->
  (exists msg,
     validate host (name :: email :: rest) fileId s
     = (inl (mkError msg),
        set_errorCategories (increment invalidEmail (errorCategories s)) s))
  <-> ~ emailShaped (trim email).
Proof.
  intros Hname Hemail. rewrite <- emailShaped_test. split.
  - intros [msg Hv] Htest.
    rewrite (validate_age_decides host name email fileId rest Hname Hemail
               Htest) in Hv.
    destruct (validateAge_cases host (rest !! 0%nat) s)
      as [[a Ha]|[msg' Ha]]; rewrite Ha in Hv; [discriminate Hv|].
    injection Hv as _ Hcats.
    apply (f_equal (count invalidEmail)) in Hcats.
    destruct (errorCategories s) as [mf ie ia ml ot]. simpl in Hcats. lia.
  - intros Htest. apply not_true_is_false in Htest.
    unfold validate. rewrite Hname, Hemail, Htest.
    eexists. reflexivity.
Qed.

(** X9 at the fields of [badEmailLine]. *)
Lemma invalidEmail_iff_not_shaped_witness :
  (exists msg,
     validate reliable (parseCSVLine badEmailLine) (str "file-1")
       (initialLocals reliable 0%nat)
     = (inl (mkError msg),
        set_errorCategories (increment invalidEmail noErrors)
          (initialLocals reliable 0%nat)))
  <-> ~ emailShaped (trim (str "david@")).
Proof.
  apply (invalidEmail_iff_not_shaped reliable (str "David Lee")
           (str "david@") (str "file-1") [str "28"; str "Engineering"]
           (initialLocals reliable 0%nat)); reflexivity.
Defined.

(** ** Files whose lines are all valid *)

Section ValidLines.

Variable host : Host.t.
Variable fileId : jsstring.
Hypothesis inserts_succeed :
  forall docs e, (Host.Record_insertMany host docs e).1 = None.

(** A valid line is counted and ends inserted or in the batch. *)
Lemma processLine_valid line (s : Locals host) :
  isFirstLine s = false -> validLine host fileId line ->
  exists s',
    processLine host fileId line s = (inr tt, s') /\
    isFirstLine s' = false /\
    totalLines s' = (totalLines s + 1)%nat /\
    failedLines s' = failedLines s /\
    errors s' = errors s /\
    errorCategories s' = errorCategories s /\
    (successfulInserts s' + length (batch s')
     = successfulInserts s + length (batch s) + 1)%nat.
Proof.
  intros Hflag [Hcounted [age Hvalid]].
  apply counted_spec in Hcounted as [Hne Hnc].
  destruct (processLine_cases host fileId line s) as (s1 & H1 & Hcases).
  exists s1. split; [assumption|].
  destruct Hcases
    as [[H _]|[(_ & [H|H] & _)|(_ & _ & _ & r & s2 & _ & Hout & Hr)]];
    [congruence|congruence|congruence|].
  destruct (Hvalid (set_totalLines (totalLines s + 1) s))
    as (record & Hrecord & _).
  destruct Hout as [c msg Hc Hv|record' Hv Hroom
                    |record' e Hv Hfull Hins|record' err e Hv Hfull Hins].
  - congruence.
  - subst s1. simpl. rewrite length_app. simpl. repeat split; [assumption|lia].
  - subst s1. simpl. rewrite length_app. simpl. repeat split; [assumption|lia].
  - pose proof (inserts_succeed
                  (batch (set_totalLines (totalLines s + 1) s) ++ [record'])
                  (env (set_totalLines (totalLines s + 1) s))) as Hok.
    rewrite Hins in Hok. discriminate Hok.
Qed.

Lemma forEach_valid lines : forall s : Locals host,
  isFirstLine s = false -> Forall (validLine host fileId) lines ->
  exists s',
    forEach (processLine host fileId) lines s = (inr tt, s') /\
    totalLines s' = (totalLines s + length lines)%nat /\
    failedLines s' = failedLines s /\
    errors s' = errors s /\
    errorCategories s' = errorCategories s /\
    (successfulInserts s' + length (batch s')
     = successfulInserts s + length (batch s) + length lines)%nat.
Proof.
  induction lines as [|line lines IH]; intros s Hflag Hall.
  - exists s. simpl. repeat split; lia.
  - inversion Hall as [|? ? Hline Hrest]; subst. clear Hall.
    rename Hrest into Hall.
    destruct (processLine_valid line s Hflag Hline)
      as (s1 & H1 & Hflag1 & Ht1 & Hf1 & He1 & Hc1 & Hs1).
    destruct (IH s1 Hflag1 Hall) as (s' & Hrun & Ht & Hf & He & Hc & Hs).
    exists s'. simpl. unfold bind. rewrite H1.
    split; [assumption|]. repeat split; try congruence; lia.
Qed.

(** With every line after the first valid, the run ends with every
    line inserted. *)
Lemma processFileContent_valid h lines (e : Host.E host) :
  Forall (validLine host fileId) lines ->
  exists e',
    processFileContent host (h :: lines) fileId e
    = (inr (Result.mk (length lines) (length lines) 0 noErrors []), e').
Proof.
  intros Hall. pose proof inserts_succeed as Hok.
  destruct (forEach_valid lines
              (set_isFirstLine false (initialLocals host e)) eq_refl Hall)
    as (s & Hrun & Ht & Hf & He & Hc & Hs).
  simpl in Ht, Hf, He, Hc, Hs.
  unfold processFileContent, processFileContent_body.
  simpl forEach. unfold bind at 1. unfold bind at 1.
  rewrite processLine_header by reflexivity. rewrite Hrun.
  unfold finalFlush, bind, gets, modify, ret, insertMany.
  destruct (batch s) as [|r b] eqn:Hb.
  - simpl. exists (env s). f_equal. f_equal.
    unfold makeResult. rewrite Ht, Hf, He, Hc.
    simpl in Hs. replace (successfulInserts s) with (length lines) by lia.
    reflexivity.
  - specialize (Hok (r :: b) (env s)).
    change (0 <? length (r :: b))%nat with true. cbv beta iota.
    destruct (Host.Record_insertMany host (r :: b) (env s)) as [[err|] e1];
      [discriminate Hok|].
    simpl. exists e1. f_equal. f_equal.
    unfold makeResult. simpl.
    rewrite Ht, Hf, He, Hc, Hb.
    replace (successfulInserts s + length (r :: b))%nat with (length lines)
      by lia.
    reflexivity.
Qed.

End ValidLines.

(** X10. When no [insertMany] call rejects, a file whose lines after the
    header are all counted and pass their checks is ingested without a
    failure: as many inserts as lines, no failed line, every category at
    0 and no error sample. *)
Theorem valid_file_fully_inserted (host : Host.t) (fileId h : jsstring)
    (lines : list jsstring) (e : Host.E host) :
  (forall docs e0, (Host.Record_insertMany host docs e0).1 = None) ->
  Forall (validLine host fileId) lines ->
  exists e',
    processFileContent host (h :: lines) fileId e
    = (inr (Result.mk (length lines) (length lines) 0 noErrors []), e').
Proof.
  intros Hok Hall. now apply processFileContent_valid.
Qed.

(** X10 at a file of three copies of [goodLine]. *)
Lemma valid_file_fully_inserted_witness :
  exists e',
    processFileContent reliable (header :: repeat goodLine 3) (str "file-1")
      0%nat
    = (inr (Result.mk 3 3 0 noErrors []), e').
Proof.
  apply (valid_file_fully_inserted reliable (str "file-1") header
           (repeat goodLine 3) 0%nat).
  - intros docs e0. reflexivity.
  - repeat constructor; exists (Some 30%Z);
      intros s; eexists; split; reflexivity.
Defined.

(** ** Further properties of the dispatch loop *)

Section Drain.

Variable host : Host.t.
Implicit Types (w : World host) (job : Job.t) (i : nat).

Lemma Kept_refl job : Kept job job.
Proof. now repeat split. Qed.

Lemma Kept_trans a b c : Kept a b -> Kept b c -> Kept a c.
Proof.
  intros (H1 & H2 & H3 & H4) (K1 & K2 & K3 & K4).
  repeat split; try congruence.
  intros Hne. specialize (H4 Hne). subst b. now apply K4.
Qed.

Lemma Kept_insert (l : list Job.t) i job j :
  l !! i = Some job -> Job.status job = pending ->
  Job.jobId j = Job.jobId job -> Job.fileId j = Job.fileId job ->
  Job.fileName j = Job.fileName job ->
  Forall2 Kept l (<[i:=j]> l).
Proof.
  intros Hi Hp H1 H2 H3. apply Forall2_same_length_lookup.
  split; [now rewrite length_insert|].
  intros k x y Hx Hy. destruct (decide (k = i)) as [->|Hne].
  - rewrite list_lookup_insert_eq in Hy by now apply lookup_lt_Some in Hi.
    assert (x = job) by congruence. assert (y = j) by congruence. subst.
    repeat split; try assumption. intros Hn. now destruct Hn.
  - rewrite list_lookup_insert_ne in Hy by congruence.
    assert (y = x) by congruence. subst. apply Kept_refl.
Qed.

Lemma processJob_catch_frame i err job w r job' w' :
  processJob_catch host i err (job, w) = (r, (job', w')) ->
  isProcessing w' = isProcessing w /\
  (jobs w' = jobs w \/ jobs w' = <[i:=failedJob job err]> (jobs w)).
Proof.
  rewrite processJob_catch_eq.
  destruct (Host.job_save host (failedJob job err) (wenv w)) as [[err'|] e'];
    intros [= <- <- <-]; simpl; auto.
Qed.

(** However [processJob] ends, it leaves [isProcessing] as it was, and
    the collection as it was but for the document at [i], which keeps
    its [jobId], [fileId] and [fileName]. *)
Lemma processJob_frame i job w r job' w' :
  processJob host i (job, w) = (r, (job', w')) ->
  isProcessing w' = isProcessing w /\
  (jobs w' = jobs w \/
   exists j, jobs w' = <[i:=j]> (jobs w) /\
     Job.jobId j = Job.jobId job /\ Job.fileId j = Job.fileId job /\
     Job.fileName j = Job.fileName job).
Proof.
  rewrite processJob_eq. cbv zeta.
  assert (Hcatch : forall err j (w0 : World host),
    isProcessing w0 = isProcessing w ->
    Job.jobId j = Job.jobId job -> Job.fileId j = Job.fileId job ->
    Job.fileName j = Job.fileName job ->
    jobs w0 = jobs w \/ jobs w0 = <[i:=Job.set_status processing job]> (jobs w) ->
    processJob_catch host i err (j, w0) = (r, (job', w')) ->
    isProcessing w' = isProcessing w /\
    (jobs w' = jobs w \/
     exists j, jobs w' = <[i:=j]> (jobs w) /\
       Job.jobId j = Job.jobId job /\ Job.fileId j = Job.fileId job /\
       Job.fileName j = Job.fileName job)).
  { intros err j w0 Hflag H1 H2 H3 Hjobs Hrun.
    apply processJob_catch_frame in Hrun as [Hflag' Hjobs'].
    split; [congruence|].
    destruct Hjobs' as [Hsame|Hput].
    - rewrite Hsame. destruct Hjobs as [->| ->]; [now left|].
      right. now exists (Job.set_status processing job).
    - right. exists (failedJob j err). split; [|now repeat split].
      rewrite Hput. destruct Hjobs as [->| ->];
        [reflexivity|apply list_insert_insert_eq]. }
  destruct (Host.job_save host _ (wenv w)) as [[err|] e1].
  { apply Hcatch; auto. }
  destruct (Host.s3Client_send host _ e1) as [[err|fileContent] e2].
  { apply Hcatch; auto. }
  destruct (processFileContent host fileContent _ e2) as [[err|result] e3].
  { apply Hcatch; auto. }
  destruct (Host.job_save host _ e3) as [[err|] e4].
  { apply Hcatch; auto. }
  intros [= <- <- <-]. simpl. split; [reflexivity|]. right.
  eexists. split; [apply list_insert_insert_eq|]. now repeat split.
Qed.

Lemma pendingCount_none w :
  findOnePending host w = None -> pendingCount host w = 0%nat.
Proof.
  unfold findOnePending, pendingCount. intros Hfind.
  apply list_find_None in Hfind.
  induction Hfind as [|x l Hx _ IH]; [reflexivity|].
  now rewrite filter_cons_False.
Qed.

(** The loop, however it ends. *)
Lemma processQueue_loop_frame : forall fuel w d w',
  processQueue_loop host fuel w = Some (d, w') ->
  Forall2 Kept (jobs w) (jobs w') /\
  match d with
  | Resolved => isProcessing w' = false /\ pendingCount host w' = 0%nat
  | Rejected _ => isProcessing w' = isProcessing w
  end.
Proof.
  induction fuel as [|fuel IH]; intros w d w' Hloop; [discriminate Hloop|].
  simpl in Hloop. destruct (findOnePending host w) as [[i job]|] eqn:Hfind.
  - apply list_find_Some in Hfind as (Hi & Hpending & _).
    destruct (processJob host i (job, w)) as [r [job1 w1]] eqn:Hrun.
    apply processJob_frame in Hrun as [Hflag Hjobs].
    assert (Hkept : Forall2 Kept (jobs w) (jobs w1)).
    { destruct Hjobs as [->|(j & -> & H1 & H2 & H3)].
      - apply Forall2_same_length_lookup. split; [reflexivity|].
        intros k x y Hx Hy. assert (y = x) by congruence. subst.
        apply Kept_refl.
      - now apply Kept_insert with job. }
    destruct r as [err|[]].
    + injection Hloop as <- <-. now split.
    + apply IH in Hloop as [Hrest Hend]. split.
      * assert (Htrans : Transitive Kept) by exact Kept_trans.
        now transitivity (jobs w1).
      * destruct d; [assumption|congruence].
  - injection Hloop as <- <-. split.
    + apply Forall2_same_length_lookup. split; [reflexivity|].
      intros k x y Hx Hy. simpl in Hy. assert (y = x) by congruence. subst.
      apply Kept_refl.
    + split; [reflexivity|]. now apply pendingCount_none in Hfind.
Qed.

End Drain.

(** X11. A call of [processQueue] on an idle queue ends.  When it resolves,
    no document is left [pending] and [isProcessing] is cleared; when it
    rejects, [isProcessing] is left set. *)
Theorem processQueue_outcome (host : Host.t) (w : World host) :
  isProcessing w = false ->
  exists d w',
    processQueue host w = Some (d, w') /\
    match d with
    | Resolved => isProcessing w' = false /\ pendingCount host w' = 0%nat
    | Rejected _ => isProcessing w' = true
    end.
Proof.
  intros Hidle. destruct (processQueue_total host w) as (d & w' & Hrun).
  exists d, w'. split; [assumption|].
  unfold processQueue in Hrun. rewrite Hidle in Hrun.
  apply processQueue_loop_frame in Hrun as [_ Hend].
  destruct d; assumption.
Qed.

(** X11 at two pending jobs on a host where the save of a [failed]
    document rejects: the drain rejects. *)
Lemma processQueue_outcome_witness :
  exists d w',
    processQueue handlerSaveDown
      (mkWorld handlerSaveDown
         [pendingJob "job-1" "a.csv"; pendingJob "job-2" "b.csv"] false 0%nat)
    = Some (d, w') /\
    match d with
    | Resolved =>
        isProcessing w' = false /\ pendingCount handlerSaveDown w' = 0%nat
    | Rejected _ => isProcessing w' = true
    end.
Proof.
  exact (processQueue_outcome handlerSaveDown
           (mkWorld handlerSaveDown
              [pendingJob "job-1" "a.csv"; pendingJob "job-2" "b.csv"]
              false 0%nat) eq_refl).
Defined.

(** X12. However a call of [processQueue] ends, the collection holds the
    same documents in the same order: none is added or removed, each
    keeps its [jobId], [fileId] and [fileName], and one that was not
    [pending] is left as it was. *)
Theorem processQueue_keeps_documents (host : Host.t) (w : World host)
    (d : Drain) (w' : World host) :
  processQueue host w = Some (d, w') -> Forall2 Kept (jobs w) (jobs w').
Proof.
  unfold processQueue. destruct (isProcessing w).
  - intros [= <- <-]. apply Forall2_same_length_lookup.
    split; [reflexivity|].
    intros k x y Hx Hy. assert (y = x) by congruence. subst. apply Kept_refl.
  - intros Hrun. now apply processQueue_loop_frame in Hrun as [Hkept _].
Qed.

(** X12 at that drain, with a completed job stored before the two. *)
Lemma processQueue_keeps_documents_witness :
  Forall2 Kept
    [Job.set_status completed (pendingJob "job-0" "z.csv");
     pendingJob "job-1" "a.csv"; pendingJob "job-2" "b.csv"]
    [Job.set_status completed (pendingJob "job-0" "z.csv");
     Job.set_status processing (pendingJob "job-1" "a.csv");
     pendingJob "job-2" "b.csv"].
Proof.
  exact (processQueue_keeps_documents handlerSaveDown
           (mkWorld handlerSaveDown
              [Job.set_status completed (pendingJob "job-0" "z.csv");
               pendingJob "job-1" "a.csv"; pendingJob "job-2" "b.csv"]
              false 0%nat)
           (Rejected (mkError (str "save failed")))
           (mkWorld handlerSaveDown
              [Job.set_status completed (pendingJob "job-0" "z.csv");
               Job.set_status processing (pendingJob "job-1" "a.csv");
               pendingJob "job-2" "b.csv"]
              true 0%nat) eq_refl).
Defined.

(** X13. Once a call of [processQueue] has rejected, the queue is blocked: a
    job enqueued afterwards is stored as [pending], [enqueueJob] starts
    no drain for it, and a later call of [processQueue] returns at once
    and leaves everything as it is. *)
Theorem rejected_drain_blocks_queue (host : Host.t) (w w1 w2 : World host)
    (err : Error) (jobId fileId fileName : jsstring) (job : Job.t)
    (started : bool) :
  processQueue host w = Some (Rejected err, w1) ->
  enqueueJob host jobId fileId fileName w1 = (inr job, w2, started) ->
  started = false /\
  jobs w2 = jobs w1 ++ [job] /\ Job.status job = pending /\
  processQueue host w2 = Some (Resolved, w2).
Proof.
  intros Hrun Henq.
  assert (Hflag : isProcessing w1 = true).
  { unfold processQueue in Hrun. destruct (isProcessing w) eqn:Hw;
      [discriminate Hrun|].
    now apply processQueue_loop_frame in Hrun as [_ Hend]. }
  unfold enqueueJob in Henq.
  destruct (Host.job_save host _ (wenv w1)) as [[err'|] e]; [discriminate Henq|].
  cbn [isProcessing] in Henq. rewrite Hflag in Henq.
  injection Henq as <- <- <-.
  now repeat split.
Qed.

(** X13 at a third job enqueued after that drain. *)
Lemma rejected_drain_blocks_queue_witness :
  processQueue handlerSaveDown
    (mkWorld handlerSaveDown
       [Job.set_status processing (pendingJob "job-1" "a.csv");
        pendingJob "job-2" "b.csv"; pendingJob "job-3" "c.csv"] true 0%nat)
  = Some (Resolved,
          mkWorld handlerSaveDown
            [Job.set_status processing (pendingJob "job-1" "a.csv");
             pendingJob "job-2" "b.csv"; pendingJob "job-3" "c.csv"]
            true 0%nat).
Proof.
  exact (proj2 (proj2 (proj2
    (rejected_drain_blocks_queue handlerSaveDown
       (mkWorld handlerSaveDown
          [pendingJob "job-1" "a.csv"; pendingJob "job-2" "b.csv"] false 0%nat)
       (mkWorld handlerSaveDown
          [Job.set_status processing (pendingJob "job-1" "a.csv");
           pendingJob "job-2" "b.csv"] true 0%nat)
       (mkWorld handlerSaveDown
          [Job.set_status processing (pendingJob "job-1" "a.csv");
           pendingJob "job-2" "b.csv"; pendingJob "job-3" "c.csv"] true 0%nat)
       (mkError (str "save failed"))
       (str "job-3") (str "file-1") (str "c.csv")
       (pendingJob "job-3" "c.csv") false eq_refl eq_refl)))).
Defined.

Lemma list_find_snoc_fresh (P : Job.t -> Prop) `{forall x, Decision (P x)}
    (l : list Job.t) (x : Job.t) :
  Forall (fun y => ~ P y) l -> P x ->
  list_find P (l ++ [x]) = Some (length l, x).
Proof.
  intros Hl Hx. apply list_find_Some. split; [|split].
  - now rewrite lookup_app_r, Nat.sub_diag by lia.
  - assumption.
  - intros j y Hy Hlt. rewrite lookup_app_l in Hy by assumption.
    rewrite list.Forall_forall in Hl. apply Hl.
    eapply list_elem_of_lookup_2; eauto.
Qed.

Lemma list_find_snoc_other (P : Job.t -> Prop) `{forall x, Decision (P x)}
    (l : list Job.t) (x : Job.t) :
  ~ P x -> list_find P (l ++ [x]) = list_find P l.
Proof.
  intros Hx. induction l as [|y l IH]; simpl.
  - now rewrite decide_False.
  - case_decide; [reflexivity|]. now rewrite IH.
Qed.

(** X14. When no stored job has the [jobId] drawn for it, the job
    [enqueueJob] returns is the one [getJobStatus] finds under that
    [jobId] right after: a [pending] document for the given file, with
    no result and no error; the answers for every other [jobId] are
    unchanged, and a drain is running. *)
Theorem enqueued_job_is_found (host : Host.t) (w w' : World host)
    (jobId fileId fileName : jsstring) (job : Job.t) (started : bool) :
  Forall (fun j => Job.jobId j <> jobId) (jobs w) ->
  enqueueJob host jobId fileId fileName w = (inr job, w', started) ->
  job = Job.mk jobId fileId fileName pending None None /\
  getJobStatus host jobId w' = Some job /\
  (forall other, other <> jobId ->
     getJobStatus host other w' = getJobStatus host other w) /\
  isProcessing w' = true /\ started = negb (isProcessing w).
Proof.
  intros Hfresh Henq. unfold enqueueJob in Henq.
  destruct (Host.job_save host _ (wenv w)) as [[err'|] e]; [discriminate Henq|].
  cbn [isProcessing] in Henq.
  assert (Hjobs : jobs w' = jobs w ++ [job] /\
                  job = Job.mk jobId fileId fileName pending None None /\
                  isProcessing w' = true /\ started = negb (isProcessing w)).
  { destruct (isProcessing w); injection Henq as <- <- <-; now repeat split. }
  destruct Hjobs as (Hjobs & Hjob & Hflag & Hstarted).
  split; [assumption|]. unfold getJobStatus. rewrite Hjobs.
  split; [|split; [|now split]].
  - rewrite list_find_snoc_fresh; [reflexivity|assumption|now subst job].
  - intros other Hother. rewrite list_find_snoc_other; [reflexivity|].
    subst job. simpl. congruence.
Qed.

(** X14 at a second job enqueued on an idle queue. *)
Lemma enqueued_job_is_found_witness :
  getJobStatus reliable (str "job-2")
    (mkWorld reliable [pendingJob "job-1" "a.csv"; pendingJob "job-2" "b.csv"]
       true 0%nat)
  = Some (pendingJob "job-2" "b.csv").
Proof.
  assert (Hfresh : Forall (fun j => Job.jobId j <> str "job-2")
                     [pendingJob "job-1" "a.csv"]).
  { apply Forall_cons_2; [|apply Forall_nil_2].
    refine (bool_decide_unpack _ _). vm_compute. exact I. }
  exact (proj1 (proj2
    (enqueued_job_is_found reliable
       (mkWorld reliable [pendingJob "job-1" "a.csv"] false 0%nat)
       (mkWorld reliable
          [pendingJob "job-1" "a.csv"; pendingJob "job-2" "b.csv"] true 0%nat)
       (str "job-2") (str "file-1") (str "b.csv")
       (pendingJob "job-2" "b.csv") true Hfresh eq_refl))).
Defined.

(** ** The generated test file *)

Lemma trimStart_id s :
  Forall (fun c => isWhiteSpace c = false) s -> trimStart s = s.
Proof.
  intros H. destruct H as [|c r Hc _]; simpl; [reflexivity|now rewrite Hc].
Qed.

Lemma trim_no_space s :
  Forall (fun c => isWhiteSpace c = false) s -> trim s = s.
Proof.
  intros H. unfold trim, trimEnd. rewrite (trimStart_id s H).
  rewrite trimStart_id by now apply List.Forall_rev.
  apply rev_involutive.
Qed.

Lemma numeral_loop_chars (P : N -> Prop) :
  (forall c, 48 <= c <= 57 -> P c) ->
  forall fuel n acc, Forall P acc -> Forall P (numeral_loop fuel n acc).
Proof.
  intros HP. induction fuel as [|fuel IH]; intros n acc Hacc;
    cbn [numeral_loop]; [assumption|].
  assert (Forall P ((48 + n mod 10) :: acc)).
  { constructor; [|assumption]. apply HP.
    assert (Hm : n mod 10 < 10) by (apply N.mod_lt; discriminate).
    revert Hm. generalize (n mod 10). intros m Hm. lia. }
  destruct (n / 10 =? 0); [assumption|now apply IH].
Qed.

Lemma numeral_chars (P : N -> Prop) n :
  (forall c, 48 <= c <= 57 -> P c) -> Forall P (numeral n).
Proof. intros HP. now apply numeral_loop_chars. Qed.

Lemma numeral_loop_nonempty fuel : forall n acc,
  acc <> [] -> numeral_loop fuel n acc <> [].
Proof.
  induction fuel as [|fuel IH]; intros n acc Hacc; cbn [numeral_loop];
    [assumption|].
  destruct (n / 10 =? 0); [discriminate|]. now apply IH.
Qed.

Lemma numeral_nonempty n : numeral n <> [].
Proof.
  unfold numeral. cbn [numeral_loop].
  destruct (n / 10 =? 0); [discriminate|]. now apply numeral_loop_nonempty.
Qed.

Lemma numeral_loop_value : forall fuel n acc,
  n < 2 ^ N.of_nat fuel ->
  digits_value 10 (map (fun c => c - 48) (numeral_loop fuel n acc))
  = fold_left (fun a d => a * 10 + d) (map (fun c => c - 48) acc) n.
Proof.
  induction fuel as [|fuel IH]; intros n acc Hn.
  - simpl in Hn. assert (n = 0) by lia. now subst.
  - cbn [numeral_loop].
    assert (Hstep :
      fold_left (fun a d => a * 10 + d)
        (map (fun c => c - 48) ((48 + n mod 10) :: acc)) (n / 10)
      = fold_left (fun a d => a * 10 + d) (map (fun c => c - 48) acc) n).
    { cbn [map fold_left]. f_equal.
      assert (Hn' : n = 10 * (n / 10) + n mod 10)
        by (apply N.div_mod; discriminate).
      revert Hn'. generalize (n / 10), (n mod 10). intros q m Hn'. lia. }
    destruct (N.eqb_spec (n / 10) 0) as [Hz|Hnz].
    + rewrite <- Hstep, Hz. reflexivity.
    + rewrite IH; [exact Hstep|].
      rewrite Nat2N.inj_succ, N.pow_succ_r' in Hn.
      apply N.Div0.div_lt_upper_bound; lia.
Qed.

Lemma numeral_value n :
  digits_value 10 (map (fun c => c - 48) (numeral n)) = n.
Proof.
  unfold numeral. rewrite numeral_loop_value; [reflexivity|].
  rewrite Nat2N.inj_succ, N2Nat.id, N.pow_succ_r'.
  pose proof (N.size_gt n). lia.
Qed.

Lemma digits_prefix_all ds :
  Forall (fun c => isDecimalDigit c = true) ds ->
  digits_prefix 10 ds = map (fun c => c - 48) ds.
Proof.
  induction 1 as [|d ds Hd _ IH]; simpl; [reflexivity|].
  rewrite digitValue_10, Hd. now f_equal.
Qed.

Lemma parseInt_digits ds :
  ds <> [] -> Forall (fun c => isDecimalDigit c = true) ds ->
  parseInt ds = Some (Z.of_N (digits_value 10 (map (fun c => c - 48) ds))).
Proof.
  intros Hne Hds. pose proof (digits_prefix_all ds Hds) as Hpre.
  destruct Hds as [|d ds Hd Hds]; [congruence|].
  pose proof (digit_not_space d Hd) as Hsp.
  pose proof Hd as Hr. apply isDecimalDigit_range in Hr.
  assert (H45 : (d =? 45) = false) by (apply N.eqb_neq; lia).
  assert (H43 : (d =? 43) = false) by (apply N.eqb_neq; lia).
  assert (Hstrip : stripPrefix (d :: ds) = (10, d :: ds)).
  { destruct Hds as [|d' ds' Hd' _]; [reflexivity|].
    apply isDecimalDigit_range in Hd'. unfold stripPrefix.
    replace (d' =? 120) with false by (symmetry; apply N.eqb_neq; lia).
    replace (d' =? 88) with false by (symmetry; apply N.eqb_neq; lia).
    now rewrite andb_false_r. }
  unfold parseInt. cbn [trimStart]. rewrite Hsp. unfold splitSign.
  rewrite H45, H43, Hstrip, Hpre. cbn [map]. cbv iota.
  f_equal. lia.
Qed.

(** The text of a number is read back by [parseInt]. *)
Lemma parseInt_numeral n : parseInt (numeral n) = Some (Z.of_N n).
Proof.
  rewrite parseInt_digits.
  - now rewrite numeral_value.
  - apply numeral_nonempty.
  - apply numeral_chars. intros c Hc. now apply isDecimalDigit_range.
Qed.

Lemma generatedLine_join i :
  generatedLine i = joinWith comma (generatedFields i).
Proof.
  unfold generatedLine, generatedFields. cbn [joinWith].
  rewrite <- !app_assoc. reflexivity.
Qed.

Lemma not_elem_of_Forall (x : N) (l : jsstring) :
  Forall (fun c => c <> x) l -> x ∉ l.
Proof.
  intros H Hin. rewrite list.Forall_forall in H. exact (H x Hin eq_refl).
Qed.

Lemma blank_no_space s :
  s <> [] -> Forall (fun c => isWhiteSpace c = false) s -> blank s = false.
Proof.
  intros Hne Hs. unfold blank. rewrite trim_no_space by assumption.
  now destruct s.
Qed.

Ltac chars :=
  repeat first
    [ apply Forall_app_2
    | apply numeral_chars; intros ? ?
    | apply Forall_cons_2
    | apply Forall_nil_2 ].

Ltac no_space :=
  chars;
  solve [reflexivity | apply digit_not_space; now apply isDecimalDigit_range].

Lemma generatedFields_written i :
  Forall2 writesField (generatedFields i) (generatedFields i).
Proof.
  assert (Hplain : Forall (fun f => Forall (fun c => c <> dquote) f /\
                                   Forall (fun c => c <> comma) f)
                     (generatedFields i)).
  { unfold generatedFields, dquote, comma.
    chars; try split; chars; solve [discriminate | lia]. }
  induction Hplain as [|f fields [Hq Hc] _ IH]; constructor; [|assumption].
  split; [now apply not_elem_of_Forall|].
  right. split; [reflexivity|now apply not_elem_of_Forall].
Qed.

Lemma generatedLine_no_space i :
  Forall (fun c => isWhiteSpace c = false) (generatedLine i).
Proof.
  unfold generatedLine. no_space.
Qed.

Lemma generatedLine_fields i :
  parseCSVLine (trim (generatedLine i)) = generatedFields i.
Proof.
  rewrite trim_no_space by apply generatedLine_no_space.
  rewrite generatedLine_join. apply parseCSVLine_joined; [discriminate|].
  apply generatedFields_written.
Qed.

Lemma generatedLine_counted i : counted (generatedLine i) = true.
Proof.
  apply counted_spec. rewrite trim_no_space by apply generatedLine_no_space.
  split; intros H; apply (f_equal head) in H; vm_compute in H; discriminate H.
Qed.

Lemma generatedFields_accepted (host : Host.t) (fileId : jsstring) (i : N) :
  accepts host (generatedFields i) fileId (Some (Z.of_N (20 + i mod 50))).
Proof.
  assert (Hemail : Forall (fun c => isWhiteSpace c = false)
                     (str "user" ++ numeral i ++ str "@company.com"))
    by no_space.
  assert (Hage : Forall (fun c => isWhiteSpace c = false)
                   (numeral (20 + i mod 50))) by no_space.
  unfold generatedFields.
  apply accepts_in_range with (age := numeral (20 + i mod 50)).
  - apply blank_no_space; [discriminate|no_space].
  - apply blank_no_space; [discriminate|assumption].
  - rewrite trim_no_space by assumption. apply emailShaped_test.
    exists (str "user" ++ numeral i), (str "company"), (str "com").
    split; [now rewrite <- app_assoc|].
    split; [|split]; (split; [discriminate|]); unfold notSpaceAt; chars;
      try reflexivity.
    match goal with
    | Hc : 48 <= ?c <= 57 |- _ =>
        rewrite (digit_not_space c) by (now apply isDecimalDigit_range);
        replace (c =? 64) with false by (symmetry; apply N.eqb_neq; lia)
    end.
    reflexivity.
  - reflexivity.
  - apply blank_no_space; [apply numeral_nonempty|assumption].
  - rewrite trim_no_space by assumption. apply parseInt_numeral.
  - assert (Hm : i mod 50 < 50) by (apply N.mod_lt; discriminate).
    revert Hm. generalize (i mod 50). intros m Hm. lia.
Qed.

Lemma generatedLine_valid (host : Host.t) (fileId : jsstring) (i : N) :
  validLine host fileId (generatedLine i).
Proof.
  split; [apply generatedLine_counted|].
  exists (Some (Z.of_N (20 + i mod 50))). rewrite generatedLine_fields.
  apply generatedFields_accepted.
Qed.

(** X15. Every line the script writes is one that the loop counts, reads as
    the four fields written, and accepts, with the age written. *)
Theorem generatedLine_accepted (host : Host.t) (fileId : jsstring) (i : N) :
  counted (generatedLine i) = true /\
  parseCSVLine (trim (generatedLine i)) = generatedFields i /\
  accepts host (generatedFields i) fileId (Some (Z.of_N (20 + i mod 50))).
Proof.
  split; [apply generatedLine_counted|].
  split; [apply generatedLine_fields|apply generatedFields_accepted].
Qed.

(** X16. When no [insertMany] call rejects, the file the script writes for
    [n] records is ingested whole: [n] lines, [n] inserts, no failure. *)
Theorem generatedFile_fully_inserted (host : Host.t) (fileId : jsstring)
    (n : nat) (e : Host.E host) :
  (forall docs e0, (Host.Record_insertMany host docs e0).1 = None) ->
  exists e',
    processFileContent host (generatedFile n) fileId e
    = (inr (Result.mk n n 0 noErrors []), e').
Proof.
  intros Hok. unfold generatedFile.
  destruct (processFileContent_valid host fileId Hok header
              (map (fun i => generatedLine (N.of_nat i)) (seq 0 n)) e)
    as [e' Hrun].
  { apply Forall_map, list.Forall_forall. intros i _.
    apply generatedLine_valid. }
  rewrite length_map, length_seq in Hrun. now exists e'.
Qed.

(** X16 at the file written for 250 records. *)
Lemma generatedFile_fully_inserted_witness :
  exists e',
    processFileContent reliable (generatedFile 250) (str "file-1") 0%nat
    = (inr (Result.mk 250 250 0 noErrors []), e').
Proof.
  apply (generatedFile_fully_inserted reliable (str "file-1") 250 0%nat).
  intros docs e0. reflexivity.
Defined.

(** ** What a run gives to [insertMany] *)

Section Stored.

Variable host : Host.t.
Variable stored : Host.E host -> list RecordDoc.t.
Variable fileId : jsstring.
Variable e0 : Host.E host.
Hypothesis inserts_append :
  forall docs e, exists e1,
    Host.Record_insertMany host docs e = (None, e1) /\
    stored e1 = stored e ++ docs.

(** Whether the checks pass, and the record then built, do not depend
    on the state. *)
Lemma validate_result fields (s t : Locals host) :
  (validate host fields fileId s).1 = (validate host fields fileId t).1.
Proof.
  unfold validate. destruct fields as [|name [|email rest]]; try reflexivity.
  run. destruct (blank name); [reflexivity|].
  destruct (blank email); [reflexivity|].
  destruct (negb (regex_test emailRegex (trim email))); [reflexivity|].
  unfold validateAge. destruct (rest !! 0%nat) as [age|]; [|reflexivity].
  destruct (negb (blank age)); [|reflexivity].
  destruct (parseInt (trim age)) as [n|]; [|reflexivity].
  now destruct ((n <? 0)%Z || (150 <? n)%Z).
Qed.

Lemma recordOf_valid line (s : Locals host) record s' :
  counted line = true ->
  validate host (parseCSVLine (trim line)) fileId s = (inr record, s') ->
  recordOf host fileId e0 line = Some record.
Proof.
  intros Hc Hv. unfold recordOf. rewrite Hc.
  pose proof (validate_result (parseCSVLine (trim line)) s
                (initialLocals host e0)) as H.
  rewrite Hv in H. simpl in H.
  destruct (validate host _ fileId (initialLocals host e0)) as [[err|r] t];
    simpl in H; congruence.
Qed.

Lemma recordOf_invalid line (s : Locals host) err s' :
  validate host (parseCSVLine (trim line)) fileId s = (inl err, s') ->
  recordOf host fileId e0 line = None.
Proof.
  intros Hv. unfold recordOf. destruct (counted line); [|reflexivity].
  pose proof (validate_result (parseCSVLine (trim line)) s
                (initialLocals host e0)) as H.
  rewrite Hv in H. simpl in H.
  destruct (validate host _ fileId (initialLocals host e0)) as [[err'|r] t];
    simpl in H; congruence.
Qed.

(** One turn: the record of the line, if it has one, joins the stored
    documents or the batch. *)
Lemma processLine_stored line (s : Locals host) :
  isFirstLine s = false ->
  exists s',
    processLine host fileId line s = (inr tt, s') /\
    isFirstLine s' = false /\
    stored (env s') ++ batch s'
    = (stored (env s) ++ batch s)
      ++ option_list (recordOf host fileId e0 line) /\
    (successfulInserts s' + length (batch s')
     = successfulInserts s + length (batch s)
       + length (option_list (recordOf host fileId e0 line)))%nat.
Proof.
  intros Hflag.
  destruct (processLine_cases host fileId line s) as (s1 & H1 & Hcases).
  exists s1. split; [assumption|].
  split; [now apply processLine_isFirstLine in H1|].
  destruct Hcases
    as [[H _]|[(_ & Hskip & ->)|(_ & Hne & Hnc & r & s2 & _ & Hout & Hr)]];
    [congruence| |].
  - assert (Hc : counted line = false).
    { destruct (counted line) eqn:Hc; [|reflexivity].
      apply counted_spec in Hc as [? ?]. now destruct Hskip. }
    unfold recordOf. rewrite Hc. simpl. rewrite app_nil_r.
    split; [reflexivity|lia].
  - assert (Hc : counted line = true) by now apply counted_spec.
    destruct Hout as [c msg Hcat Hv|record Hv Hroom
                     |record e Hv Hfull Hins|record err e Hv Hfull Hins].
    + rewrite (recordOf_invalid line _ _ _ Hv).
      apply catchBlock_fields in Hr
        as (_ & _ & Hs & Hb & He & _). simpl in Hs, Hb, He.
      rewrite Hs, Hb, He. simpl. rewrite app_nil_r. split; [reflexivity|lia].
    + rewrite (recordOf_valid line _ _ _ Hc Hv). subst s1. simpl.
      rewrite length_app, app_assoc. simpl. split; [reflexivity|lia].
    + rewrite (recordOf_valid line _ _ _ Hc Hv). subst s1. simpl in *.
      destruct (inserts_append (batch s ++ [record]) (env s))
        as (e1 & Hins' & Hstored).
      assert (e = e1) by congruence. subst e.
      rewrite Hstored, app_nil_r, app_assoc. split; [reflexivity|].
      rewrite length_app. simpl. lia.
    + simpl in Hins.
      destruct (inserts_append (batch s ++ [record]) (env s))
        as (e1 & Hins' & _).
      congruence.
Qed.

Lemma omap_cons_list (f : jsstring -> option RecordDoc.t) line lines :
  omap f (line :: lines) = option_list (f line) ++ omap f lines.
Proof. simpl. now destruct (f line). Qed.

Lemma forEach_stored lines : forall s : Locals host,
  isFirstLine s = false ->
  exists s',
    forEach (processLine host fileId) lines s = (inr tt, s') /\
    stored (env s') ++ batch s'
    = (stored (env s) ++ batch s) ++ omap (recordOf host fileId e0) lines /\
    (successfulInserts s' + length (batch s')
     = successfulInserts s + length (batch s)
       + length (omap (recordOf host fileId e0) lines))%nat.
Proof.
  induction lines as [|line lines IH]; intros s Hflag.
  - exists s. simpl. rewrite app_nil_r. repeat split. lia.
  - destruct (processLine_stored line s Hflag)
      as (s1 & H1 & Hflag1 & Hst1 & Hn1).
    destruct (IH s1 Hflag1) as (s' & Hrun & Hst & Hn).
    exists s'. cbn [forEach]. unfold bind. rewrite H1.
    split; [assumption|]. rewrite omap_cons_list, length_app.
    split; [|lia]. now rewrite Hst, Hst1, app_assoc.
Qed.

End Stored.

(** X17. With a store that accepts every batch and keeps the documents it is
    given in the order given, a run adds to it the records of the lines
    after the first that are counted and pass the checks, each once and
    in file order, and [successfulInserts] is their number. *)
Theorem stored_records (host : Host.t)
    (stored : Host.E host -> list RecordDoc.t) (fileId h : jsstring)
    (lines : list jsstring) (e : Host.E host) :
  (forall docs e0, exists e1,
     Host.Record_insertMany host docs e0 = (None, e1) /\
     stored e1 = stored e0 ++ docs) ->
  exists result e',
    processFileContent host (h :: lines) fileId e = (inr result, e') /\
    stored e' = stored e ++ omap (recordOf host fileId e) lines /\
    Result.successfulInserts result
    = length (omap (recordOf host fileId e) lines).
Proof.
  intros inserts_append.
  destruct (forEach_stored host stored fileId e inserts_append lines
              (set_isFirstLine false (initialLocals host e)) eq_refl)
    as (s & Hrun & Hst & Hn).
  simpl in Hst, Hn. rewrite app_nil_r in Hst.
  unfold processFileContent, processFileContent_body.
  cbn [forEach]. unfold bind at 1. unfold bind at 1.
  rewrite processLine_header by reflexivity. rewrite Hrun.
  unfold finalFlush, bind, gets, modify, ret, insertMany.
  destruct (batch s) as [|r b] eqn:Hb.
  - simpl. do 2 eexists. split; [reflexivity|]. simpl.
    rewrite app_nil_r in Hst. split; [assumption|]. simpl in Hn. lia.
  - change (0 <? length (r :: b))%nat with true. cbv beta iota.
    destruct (inserts_append (r :: b) (env s)) as (e1 & Hins & Hstored).
    rewrite Hins. simpl. do 2 eexists. split; [reflexivity|]. simpl.
    rewrite Hb. split; [congruence|]. simpl in *. lia.
Qed.

(** X17 at two copies of [goodLine] around [badEmailLine]. *)
Lemma stored_records_witness :
  exists result e',
    processFileContent logging [header; goodLine; badEmailLine; goodLine]
      (str "file-1") []
    = (inr result, e') /\
    concat e' = concat [] ++ omap (recordOf logging (str "file-1") [])
                               [goodLine; badEmailLine; goodLine] /\
    Result.successfulInserts result
    = length (omap (recordOf logging (str "file-1") [])
                [goodLine; badEmailLine; goodLine]).
Proof.
  apply (stored_records logging (fun e => concat e) (str "file-1") header
           [goodLine; badEmailLine; goodLine] []).
  intros docs e0. exists (e0 ++ [docs]). split; [reflexivity|].
  rewrite concat_app. simpl. now rewrite app_nil_r.
Defined.

(** The records of the lines of the witness. *)
Example records_of_three_lines :
  omap (recordOf logging (str "file-1") [])
    [goodLine; badEmailLine; goodLine] = [goodRecord; goodRecord].
Proof. vm_compute. reflexivity. Qed.

Section Batches.

Variable host : Host.t.
Variable calls : Host.E host -> list (list RecordDoc.t).
Variable fileId : jsstring.
Variable e0 : Host.E host.
Hypothesis inserts_logged :
  forall docs e, exists e1,
    Host.Record_insertMany host docs e = (None, e1) /\
    calls e1 = calls e ++ [docs].

Lemma processLine_batches line (s : Locals host) :
  isFirstLine s = false -> FullBatches calls e0 s ->
  exists s',
    processLine host fileId line s = (inr tt, s') /\
    isFirstLine s' = false /\ FullBatches calls e0 s'.
Proof.
  intros Hflag (Hroom & full & Hcalls & Hfull).
  destruct (processLine_cases host fileId line s) as (s1 & H1 & Hcases).
  exists s1. split; [assumption|].
  split; [now apply processLine_isFirstLine in H1|].
  destruct Hcases
    as [[H _]|[(_ & _ & ->)|(_ & _ & _ & r & s2 & _ & Hout & Hr)]];
    [congruence|split; eauto|].
  destruct Hout as [c msg Hcat Hv|record Hv Hroom'
                   |record e Hv Hfull' Hins|record err e Hv Hfull' Hins].
  - apply catchBlock_fields in Hr as (_ & _ & _ & Hb & He & _).
    simpl in Hb, He. unfold FullBatches. rewrite Hb, He. split; eauto.
  - subst s1. split; [assumption|]. simpl. eauto.
  - subst s1. simpl in *.
    destruct (inserts_logged (batch s ++ [record]) (env s))
      as (e1 & Hins' & Hlog).
    assert (e = e1) by congruence. subst e.
    split; [simpl; unfold BATCH_SIZE; lia|]. simpl.
    exists (full ++ [batch s ++ [record]]). split.
    + now rewrite Hlog, Hcalls, app_assoc.
    + apply Forall_app_2; [assumption|].
      apply Forall_cons_2; [|apply Forall_nil_2].
      rewrite length_app in *. simpl in *. lia.
  - simpl in Hins.
    destruct (inserts_logged (batch s ++ [record]) (env s))
      as (e1 & Hins' & _).
    congruence.
Qed.

Lemma forEach_batches lines : forall s : Locals host,
  isFirstLine s = false -> FullBatches calls e0 s ->
  exists s',
    forEach (processLine host fileId) lines s = (inr tt, s') /\
    FullBatches calls e0 s'.
Proof.
  induction lines as [|line lines IH]; intros s Hflag Hinv.
  - now exists s.
  - destruct (processLine_batches line s Hflag Hinv)
      as (s1 & H1 & Hflag1 & Hinv1).
    destruct (IH s1 Hflag1 Hinv1) as (s' & Hrun & Hinv').
    exists s'. cbn [forEach]. unfold bind. now rewrite H1.
Qed.

End Batches.

(** X18. With a store that accepts every batch, the calls of [insertMany]
    made by a run each carry [BATCH_SIZE] documents, but for the last
    one, which may carry fewer and never carries none. *)
Theorem insert_batches (host : Host.t)
    (calls : Host.E host -> list (list RecordDoc.t)) (fileId h : jsstring)
    (lines : list jsstring) (e : Host.E host) :
  (forall docs e0, exists e1,
     Host.Record_insertMany host docs e0 = (None, e1) /\
     calls e1 = calls e0 ++ [docs]) ->
  exists result e' full rest,
    processFileContent host (h :: lines) fileId e = (inr result, e') /\
    calls e' = calls e ++ full ++ rest /\
    Forall (fun b => length b = BATCH_SIZE) full /\
    (rest = [] \/
     exists b, rest = [b] /\ (0 < length b < BATCH_SIZE)%nat).
Proof.
  intros inserts_logged.
  destruct (forEach_batches host calls fileId e inserts_logged lines
              (set_isFirstLine false (initialLocals host e)) eq_refl)
    as (s & Hrun & Hroom & full & Hcalls & Hfull).
  { split; [simpl; unfold BATCH_SIZE; lia|].
    exists []. split; [simpl; now rewrite app_nil_r|constructor]. }
  simpl in Hcalls.
  unfold processFileContent, processFileContent_body.
  cbn [forEach]. unfold bind at 1. unfold bind at 1.
  rewrite processLine_header by reflexivity. rewrite Hrun.
  unfold finalFlush, bind, gets, modify, ret, insertMany.
  destruct (batch s) as [|r b] eqn:Hb.
  - simpl. exists (makeResult host s), (env s), full, [].
    split; [reflexivity|]. rewrite app_nil_r. auto.
  - change (0 <? length (r :: b))%nat with true. cbv beta iota.
    destruct (inserts_logged (r :: b) (env s)) as (e1 & Hins & Hlog).
    rewrite Hins. simpl. do 2 eexists. exists full, [r :: b].
    split; [reflexivity|]. simpl.
    split; [now rewrite Hlog, Hcalls, app_assoc|].
    split; [assumption|]. right. exists (r :: b).
    split; [reflexivity|]. simpl in *. lia.
Qed.

(** X18 at 250 copies of [goodLine]. *)
Lemma insert_batches_witness :
  exists result e' full rest,
    processFileContent logging (header :: repeat goodLine 250) (str "file-1")
      []
    = (inr result, e') /\
    e' = [] ++ full ++ rest /\
    Forall (fun b => length b = BATCH_SIZE) full /\
    (rest = [] \/
     exists b, rest = [b] /\ (0 < length b < BATCH_SIZE)%nat).
Proof.
  apply (insert_batches logging (fun e => e) (str "file-1") header
           (repeat goodLine 250) []).
  intros docs e0. now exists (e0 ++ [docs]).
Defined.

(** The calls of the witness. *)
Example batches_of_250_lines :
  (processFileContent logging (header :: repeat goodLine 250) (str "file-1")
     []).2
  = [repeat goodRecord 100; repeat goodRecord 100; repeat goodRecord 50].
Proof. vm_compute. reflexivity. Qed.

(** ** A job ends with a result or with an error *)

(** X19 at a job whose object is missing from the store. *)
Lemma processJob_exactly_one_witness :
  exists job' w',
    processJob reliable 0
      (pendingJob "job-1" "a.csv",
       mkWorld reliable [pendingJob "job-1" "a.csv"] true 0%nat)
    = (inr tt, (job', w')) /\
    ((Job.status job' = completed /\
      Job.result job' <> None /\ Job.error job' = None) \/
     (Job.status job' = failed /\
      Job.result job' = None /\ Job.error job' <> None)).
Proof.
  apply (processJob_exactly_one reliable 0%nat (pendingJob "job-1" "a.csv")
           (mkWorld reliable [pendingJob "job-1" "a.csv"] true 0%nat)).
  - intros j e _. reflexivity.
  - intros j e _. reflexivity.
  - reflexivity.
  - reflexivity.
Defined.

(** ** What the checks let through *)

(** X20. What the checks let through.  When [validate] returns a record
    it has changed nothing, there were at least a name and an email
    field, and the record holds: the trimmed name, which is not empty;
    the trimmed email in lower case, the trimmed email being of the
    shape [a@b.c]; an age that is null or an integer from 0 to 150; a
    department that is null or the trimmed form of a non-empty fourth
    field; and the file id. *)
Theorem validated_record (host : Host.t) (fields : list jsstring)
    (fileId : jsstring) (s s' : Locals host) (record : RecordDoc.t) :
  validate host fields fileId s = (inr record, s') ->
  s' = s /\
  exists name email rest,
    fields = name :: email :: rest /\
    RecordDoc.name record = trim name /\ trim name <> [] /\
    RecordDoc.email record = Host.toLowerCase host (trim email) /\
    emailShaped (trim email) /\
    (RecordDoc.age record = None \/
     exists n, RecordDoc.age record = Some n /\ (0 <= n <= 150)%Z) /\
    (forall d, RecordDoc.department record = Some d ->
       exists d0, rest !! 1%nat = Some d0 /\ d0 <> [] /\ d = trim d0) /\
    RecordDoc.uploadedFileId record = fileId.
Proof.
  unfold validate. destruct fields as [|name [|email rest]];
    try (intros H; discriminate H).
  run. destruct (blank name) eqn:Hname; [intros H; discriminate H|].
  destruct (blank email) eqn:Hemail; [intros H; discriminate H|].
  destruct (regex_test emailRegex (trim email)) eqn:Htest;
    [|intros H; discriminate H].
  cbn [negb]. cbv beta iota.
  assert (Hshape : emailShaped (trim email)) by now apply emailShaped_test.
  assert (Hne : trim name <> []).
  { unfold blank in Hname. apply orb_false_iff in Hname as [_ Hname].
    intros Hnil. now rewrite Hnil in Hname. }
  assert (Hdept : forall d,
    match rest !! 1%nat with
    | Some d0 => if isEmpty d0 then None else Some (trim d0)
    | None => None
    end = Some d ->
    exists d0, rest !! 1%nat = Some d0 /\ d0 <> [] /\ d = trim d0).
  { intros d. destruct (rest !! 1%nat) as [d0|]; [|discriminate].
    destruct d0 as [|c d0]; [discriminate|].
    intros [= <-]. exists (c :: d0). now repeat split. }
  unfold validateAge. destruct (rest !! 0%nat) as [age|].
  2: { intros [= <- <-]. split; [reflexivity|].
       exists name, email, rest. simpl. repeat split; auto. }
  destruct (negb (blank age)).
  2: { intros [= <- <-]. split; [reflexivity|].
       exists name, email, rest. simpl. repeat split; auto. }
  destruct (parseInt (trim age)) as [n|]; [|intros H; discriminate H].
  destruct ((n <? 0)%Z || (150 <? n)%Z) eqn:Hrange;
    [intros H; discriminate H|].
  intros [= <- <-]. split; [reflexivity|].
  exists name, email, rest. simpl. repeat split; auto.
  right. exists n. split; [reflexivity|]. lia.
Qed.

(** X20 at the fields of [goodLine]. *)
Lemma validated_record_witness :
  exists name email rest,
    parseCSVLine goodLine = name :: email :: rest /\
    RecordDoc.name goodRecord = trim name /\ trim name <> [] /\
    RecordDoc.email goodRecord = Host.toLowerCase reliable (trim email) /\
    emailShaped (trim email) /\
    (RecordDoc.age goodRecord = None \/
     exists n, RecordDoc.age goodRecord = Some n /\ (0 <= n <= 150)%Z) /\
    (forall d, RecordDoc.department goodRecord = Some d ->
       exists d0, rest !! 1%nat = Some d0 /\ d0 <> [] /\ d = trim d0) /\
    RecordDoc.uploadedFileId goodRecord = str "file-1".
Proof.
  exact (proj2 (validated_record reliable (parseCSVLine goodLine)
                  (str "file-1") (initialLocals reliable 0%nat)
                  (initialLocals reliable 0%nat) goodRecord eq_refl)).
Defined.
